(** * datamodel/high/base/schema.go: the high-level Schema and its builder

    [NewSchema] turns a low-level, source-mapped schema into the high-level
    [Schema].  The first half of the function is sequential field copying and
    dialect normalisation; the second half fans out goroutines over unbuffered
    channels and joins them in a [select] loop.  The sequential half is
    embedded as a pure function, the concurrent half as an interleaving
    semantics: a step function that, given which goroutine moves, runs that
    goroutine's next statement. *)

From Stdlib Require Import ZArith String.
From stdpp Require Import base option list countable gmap strings fin_maps functions.

(** ** Go values *)

(** A Go slice; [None] is the nil slice, the zero value of every slice type. *)
Definition slice (A : Type) : Type := option (list A).

Definition elems {A} (s : slice A) : list A := default [] s.

Definition len {A} (s : slice A) : nat := length (elems s).

(** [append(s, x)]: the result is never nil. *)
Definition append {A} (s : slice A) (x : A) : slice A := Some (elems s ++ [x]).

(** A Go pointer [*T] to a freshly built or absent object; [None] is nil. *)
Definition ptr (A : Type) : Type := option A.

(** ** Package datamodel/low (imported as lowmodel) *)

(** Identity of a [*yaml.Node]. *)
Definition Node : Type := N.

(** The three reference structs; their fields are the ones the composite
    literals and selectors of schema.go name. *)
Record NodeReference (T : Type) : Type := mkNodeReference {
  Value : T;
  ValueNode : ptr Node;
  KeyNode : ptr Node
}.
Arguments mkNodeReference {T} _ _ _.
Arguments Value {T} _.
Arguments ValueNode {T} _.
Arguments KeyNode {T} _.

Record ValueReference (T : Type) : Type := mkValueReference {
  vrValue : T;
  vrValueNode : ptr Node
}.
Arguments mkValueReference {T} _ _.
Arguments vrValue {T} _.
Arguments vrValueNode {T} _.

Record KeyReference (T : Type) : Type := mkKeyReference {
  krValue : T;
  krKeyNode : ptr Node
}.
Arguments mkKeyReference {T} _ _.
Arguments krValue {T} _.
Arguments krKeyNode {T} _.

(** Modelled from the spec: the method [IsEmpty] of [NodeReference], declared
    in package datamodel/low and only called in schema.go.  The spec gives a
    low-level node a presence flag that tells "field absent" from "field
    present with a zero value"; a reference is absent when it carries neither
    a key node nor a value node. *)
Definition IsEmpty {T} (n : NodeReference T) : bool :=
  bool_decide (KeyNode n = None) && bool_decide (ValueNode n = None).

#[global] Instance KeyReference_eq_dec {T} `{EqDecision T} : EqDecision (KeyReference T).
Proof. solve_decision. Defined.

#[global] Instance KeyReference_countable {T} `{Countable T} : Countable (KeyReference T).
Proof.
  refine (inj_countable' (fun k => (krValue k, krKeyNode k))
                         (fun p => mkKeyReference p.1 p.2) _).
  by intros [].
Defined.

(** ** Package datamodel/low/base *)

Module base.

(** Identity of a low-level [base.SchemaProxy] object; NewSchema only passes
    the pointer along. *)
Definition SchemaProxy : Type := N.

(** Identities of the peripheral low-level objects NewSchema hands to the
    constructors of their high-level counterparts, and of [any] values. *)
Definition Discriminator : Type := N.
Definition XML : Type := N.
Definition ExternalDoc : Type := N.
Definition ExtensionMap : Type := N.
Definition dyn : Type := N.

(** Modelled from the spec: the struct [SchemaDynamicValue], declared in
    package datamodel/low/base and only used in schema.go.  It is the union
    of the two dialect forms of a field, observed through [IsA()], [IsB()] and
    the fields [A] and [B]; the spec allows for a union with neither variant
    populated, or both. *)
Record SchemaDynamicValue (TA TB : Type) : Type := mkSchemaDynamicValue {
  IsA : bool;
  IsB : bool;
  A : TA;
  B : TB
}.
Arguments mkSchemaDynamicValue {TA TB} _ _ _ _.
Arguments IsA {TA TB} _.
Arguments IsB {TA TB} _.
Arguments A {TA TB} _.
Arguments B {TA TB} _.

(** Modelled from the spec: the struct [base.Schema], declared in package
    datamodel/low/base and only read in schema.go.  Its fields are the ones
    NewSchema reads, with the types the assignments of NewSchema fix, and
    [UniqueItems], the low-level counterpart of the scalar constraint of that
    name in the high-level struct. *)
Record Schema : Type := mkSchema {
  Title : NodeReference string;
  MultipleOf : NodeReference Z;
  Maximum : NodeReference Z;
  ExclusiveMaximum : NodeReference (SchemaDynamicValue bool Z);
  Minimum : NodeReference Z;
  ExclusiveMinimum : NodeReference (SchemaDynamicValue bool Z);
  MaxLength : NodeReference Z;
  MinLength : NodeReference Z;
  Pattern : NodeReference string;
  Format : NodeReference string;
  MaxItems : NodeReference Z;
  MinItems : NodeReference Z;
  UniqueItems : NodeReference Z;
  MaxProperties : NodeReference Z;
  MinProperties : NodeReference Z;
  Required : NodeReference (list (ValueReference string));
  Enum : NodeReference (list (ValueReference string));
  Type_ : NodeReference (SchemaDynamicValue string (list (ValueReference string)));
  AllOf : NodeReference (list (ValueReference (ptr SchemaProxy)));
  OneOf : NodeReference (list (ValueReference (ptr SchemaProxy)));
  AnyOf : NodeReference (list (ValueReference (ptr SchemaProxy)));
  Not : NodeReference (list (ValueReference (ptr SchemaProxy)));
  Items : NodeReference (list (ValueReference (ptr SchemaProxy)));
  Properties :
    NodeReference (gmap (KeyReference string) (ValueReference (ptr SchemaProxy)));
  AdditionalProperties : NodeReference (ptr dyn);
  Description : NodeReference string;
  Default : NodeReference (ptr dyn);
  Nullable : NodeReference bool;
  Discriminator_ : NodeReference (ptr Discriminator);
  ReadOnly : NodeReference bool;
  WriteOnly : NodeReference bool;
  XML_ : NodeReference (ptr XML);
  ExternalDocs : NodeReference (ptr ExternalDoc);
  Example : NodeReference (ptr dyn);
  Deprecated : NodeReference bool;
  Extensions : ExtensionMap
}.

End base.

(** ** Package datamodel/high/base *)

(** Modelled from the spec: the constructors [NewDiscriminator], [NewXML],
    [NewExternalDoc] and [high.ExtractExtensions], declared in other files and
    only called in schema.go.  The spec keeps them out of scope, as value
    objects attached by reference; each result is kept as the constructor
    applied to its argument. *)
Inductive Discriminator : Type := NewDiscriminator (d : ptr base.Discriminator).
Inductive XML : Type := NewXML (x : ptr base.XML).
Inductive ExternalDoc : Type := NewExternalDoc (e : ptr base.ExternalDoc).
Inductive ExtensionMap : Type := ExtractExtensions (e : base.ExtensionMap).

(** Modelled from the spec: the struct [SchemaProxy], declared in another
    file of the package.  The composite literals of NewSchema set its field
    [schema]; the spec adds the cache of the materialised schema, nil until
    the first access, kept here as the identity of the cached object. *)
Record SchemaProxy : Type := mkSchemaProxy {
  schema : NodeReference (ptr base.SchemaProxy);
  rendered : ptr N
}.

(** The map object a [map[string]*SchemaProxy] value points to.  NewSchema
    makes one such object ([props], line 183); [s.Properties] is nil or a
    reference to it. *)
Inductive mapref : Type := props_ref.

Record Schema : Type := mkSchema {
  SchemaTypeRef : string;
  Title : string;
  MultipleOf : Z;
  Maximum : Z;
  ExclusiveMaximumBool : bool;
  ExclusiveMaximum : Z;
  Minimum : Z;
  ExclusiveMinimum : Z;
  ExclusiveMinimumBool : bool;
  MaxLength : Z;
  MinLength : Z;
  Pattern : string;
  Format : string;
  MaxItems : Z;
  MinItems : Z;
  UniqueItems : Z;
  MaxProperties : Z;
  MinProperties : Z;
  Required : slice string;
  Enum : slice string;
  Type_ : slice string;
  AllOf : slice (ptr SchemaProxy);
  OneOf : slice (ptr SchemaProxy);
  AnyOf : slice (ptr SchemaProxy);
  Not : slice (ptr SchemaProxy);
  Items : slice (ptr SchemaProxy);
  Properties : ptr mapref;
  AdditionalProperties : ptr base.dyn;
  Description : string;
  Default : ptr base.dyn;
  Nullable : bool;
  Discriminator_ : ptr Discriminator;
  ReadOnly : bool;
  WriteOnly : bool;
  XML_ : ptr XML;
  ExternalDocs : ptr ExternalDoc;
  Example : ptr base.dyn;
  Examples : slice (ptr base.dyn);
  Deprecated : bool;
  Extensions : ptr ExtensionMap;
  low : ptr base.Schema
}.

(** [new(Schema)]: every field at the zero value of its type. *)
Definition new_Schema : Schema :=
  {| SchemaTypeRef := ""; Title := ""; MultipleOf := 0; Maximum := 0;
     ExclusiveMaximumBool := false; ExclusiveMaximum := 0; Minimum := 0;
     ExclusiveMinimum := 0; ExclusiveMinimumBool := false; MaxLength := 0;
     MinLength := 0; Pattern := ""; Format := ""; MaxItems := 0; MinItems := 0;
     UniqueItems := 0; MaxProperties := 0; MinProperties := 0;
     Required := None; Enum := None; Type_ := None;
     AllOf := None; OneOf := None; AnyOf := None; Not := None; Items := None;
     Properties := None; AdditionalProperties := None; Description := "";
     Default := None; Nullable := false; Discriminator_ := None;
     ReadOnly := false; WriteOnly := false; XML_ := None; ExternalDocs := None;
     Example := None; Examples := None; Deprecated := false;
     Extensions := None; low := None |}.

(** *** NewSchema, lines 59-128: the sequential field copies *)

(** [for i := range refs { acc = append(acc, refs[i].Value) }] *)
Definition append_values (acc : slice string) (refs : list (ValueReference string))
  : slice string :=
  fold_left (fun acc r => append acc (vrValue r)) refs acc.

(** Lines 65-80, one exclusivity field: the boolean form, then the numeric. *)
Definition exclusive_bool (e : NodeReference (base.SchemaDynamicValue bool Z)) : bool :=
  if negb (IsEmpty e) && base.IsA (Value e) then base.A (Value e) else false.

Definition exclusive_num (e : NodeReference (base.SchemaDynamicValue bool Z)) : Z :=
  if negb (IsEmpty e) && base.IsB (Value e) then base.B (Value e) else 0%Z.

(** Lines 90-99: the two conditionals over [schema.Type], in order. *)
Definition normalise_type
    (t : NodeReference (base.SchemaDynamicValue string (list (ValueReference string))))
  : slice string :=
  let ty : slice string := None in
  let ty := if negb (IsEmpty t) && base.IsA (Value t)
            then Some [base.A (Value t)] else ty in
  let ty := if negb (IsEmpty t) && base.IsB (Value t)
            then append_values ty (base.B (Value t)) else ty in
  ty.

(** The object [s] as it stands at line 129, before any goroutine exists.
    Fields NewSchema never assigns keep the value [new(Schema)] gave them. *)
Definition NewSchema_fields (sch : base.Schema) : Schema :=
  {| SchemaTypeRef := SchemaTypeRef new_Schema;
     Title := Value (base.Title sch);
     MultipleOf := Value (base.MultipleOf sch);
     Maximum := Value (base.Maximum sch);
     ExclusiveMaximumBool := exclusive_bool (base.ExclusiveMaximum sch);
     ExclusiveMaximum := exclusive_num (base.ExclusiveMaximum sch);
     Minimum := Value (base.Minimum sch);
     ExclusiveMinimum := exclusive_num (base.ExclusiveMinimum sch);
     ExclusiveMinimumBool := exclusive_bool (base.ExclusiveMinimum sch);
     MaxLength := Value (base.MaxLength sch);
     MinLength := Value (base.MinLength sch);
     Pattern := Value (base.Pattern sch);
     Format := Value (base.Format sch);
     MaxItems := Value (base.MaxItems sch);
     MinItems := Value (base.MinItems sch);
     UniqueItems := UniqueItems new_Schema;
     MaxProperties := Value (base.MaxProperties sch);
     MinProperties := Value (base.MinProperties sch);
     Required := append_values None (Value (base.Required sch));
     Enum := append_values None (Value (base.Enum sch));
     Type_ := normalise_type (base.Type_ sch);
     AllOf := AllOf new_Schema;
     OneOf := OneOf new_Schema;
     AnyOf := AnyOf new_Schema;
     Not := Not new_Schema;
     Items := Items new_Schema;
     Properties := Properties new_Schema;
     AdditionalProperties := Value (base.AdditionalProperties sch);
     Description := Value (base.Description sch);
     Default := Value (base.Default sch);
     Nullable := Value (base.Nullable sch);
     Discriminator_ :=
       if negb (IsEmpty (base.Discriminator_ sch))
       then Some (NewDiscriminator (Value (base.Discriminator_ sch))) else None;
     ReadOnly := Value (base.ReadOnly sch);
     WriteOnly := Value (base.WriteOnly sch);
     XML_ :=
       if negb (IsEmpty (base.XML_ sch))
       then Some (NewXML (Value (base.XML_ sch))) else None;
     ExternalDocs :=
       if negb (IsEmpty (base.ExternalDocs sch))
       then Some (NewExternalDoc (Value (base.ExternalDocs sch))) else None;
     Example := Value (base.Example sch);
     Examples := Examples new_Schema;
     Deprecated := Value (base.Deprecated sch);
     Extensions := Some (ExtractExtensions (base.Extensions sch));
     low := Some sch |}.

(** *** NewSchema, lines 135-237: the concurrent build *)

(** The five slice variables declared at lines 188-192, named as there. *)
Inductive poly : Type := allOf | oneOf | anyOf | not_ | items.

#[global] Instance poly_eq_dec : EqDecision poly.
Proof. solve_decision. Defined.

(** The low-level array each variable is built from (lines 194-208). *)
Definition source (sch : base.Schema) (w : poly)
  : NodeReference (list (ValueReference (ptr base.SchemaProxy))) :=
  match w with
  | allOf => base.AllOf sch
  | oneOf => base.OneOf sch
  | anyOf => base.AnyOf sch
  | not_ => base.Not sch
  | items => base.Items sch
  end.

Definition schemas (sch : base.Schema) (w : poly)
  : list (ValueReference (ptr base.SchemaProxy)) := Value (source sch w).

(** The order of the five [if !X.IsEmpty() { go buildOutSchema(...) }]. *)
Definition go_order : list poly := [allOf; anyOf; oneOf; not_; items].

(** The order of the five closing assignments, lines 231-235. *)
Definition assign_order : list poly := [oneOf; anyOf; allOf; items; not_].

(** buildSchemaChild, lines 146-149. *)
Definition child_proxy (sch : ValueReference (ptr base.SchemaProxy)) : SchemaProxy :=
  {| schema := {| Value := vrValue sch; ValueNode := vrValueNode sch; KeyNode := None |};
     rendered := None |}.

(** buildProps, lines 173-177. *)
Definition prop_proxy (k : KeyReference string) (v : ValueReference (ptr base.SchemaProxy))
  : SchemaProxy :=
  {| schema := {| Value := vrValue v; ValueNode := vrValueNode v; KeyNode := krKeyNode k |};
     rendered := None |}.

(** One entry of [schema.Properties.Value], the arguments of one buildProps. *)
Definition PropEntry : Type :=
  (KeyReference string * ValueReference (ptr base.SchemaProxy))%type.

(** Lines 212-213. *)
Definition totalProps (sch : base.Schema) : nat := size (Value (base.Properties sch)).

Definition totalChildren (sch : base.Schema) : nat :=
  length (schemas sch allOf) + length (schemas sch oneOf) + length (schemas sch anyOf)
  + length (schemas sch items) + length (schemas sch not_).

(** Where the main goroutine stands. *)
Inductive MainPc : Type :=
| MRangeProps (todo : list PropEntry) (* line 184, entries not yet ranged over *)
| MGoPoly (rest : list poly)          (* lines 194-208, then the test of line 214 *)
| MSelect (completeChildren completedProps : nat) (* the select of line 217 *)
| MAssign (rest : list poly)          (* lines 231-235, then the return *)
| MReturned.

(** Where the buildProps goroutine that holds [plock] stands. *)
Inductive HolderPc : Type :=
| HInsert   (* line 173 *)
| HAssign   (* line 179 *)
| HSend     (* line 180, [c <- true] *)
| HUnlock.  (* the deferred [plock.Unlock()] *)

(** Where a buildOutSchema goroutine stands. *)
Inductive CollectorPc : Type :=
| OIdle                                 (* not started *)
| OSpawn (v : nat)                      (* line 153, at index v *)
| OCollect (j : nat)                    (* line 157, the loop test *)
| OAppend (j : nat) (t : ptr SchemaProxy) (* line 161, after [j++] *)
| ODone.                                (* after line 164 *)

(** The shared store and every goroutine's position.  A buildProps goroutine
    is in [waiting] until [plock.Lock()] returns, in [plock] while it holds the
    mutex, in [finished] once it has ended; a buildSchemaChild goroutine is in
    [children] until its send on [bChan] is taken. *)
Record State : Type := mkState {
  pc : MainPc;
  s : Schema;
  props : gmap string (ptr SchemaProxy);
  waiting : list PropEntry;
  plock : option (PropEntry * HolderPc);
  finished : list PropEntry;
  vars : poly → slice (ptr SchemaProxy);
  collector : poly → CollectorPc;
  children : poly → list (ValueReference (ptr base.SchemaProxy))
}.

Definition set_pc (x : MainPc) (st : State) : State :=
  mkState x (s st) (props st) (waiting st) (plock st) (finished st)
          (vars st) (collector st) (children st).

Definition set_s (x : Schema) (st : State) : State :=
  mkState (pc st) x (props st) (waiting st) (plock st) (finished st)
          (vars st) (collector st) (children st).

Definition set_props (x : gmap string (ptr SchemaProxy)) (st : State) : State :=
  mkState (pc st) (s st) x (waiting st) (plock st) (finished st)
          (vars st) (collector st) (children st).

Definition set_waiting (x : list PropEntry) (st : State) : State :=
  mkState (pc st) (s st) (props st) x (plock st) (finished st)
          (vars st) (collector st) (children st).

Definition set_plock (x : option (PropEntry * HolderPc)) (st : State) : State :=
  mkState (pc st) (s st) (props st) (waiting st) x (finished st)
          (vars st) (collector st) (children st).

Definition set_finished (x : list PropEntry) (st : State) : State :=
  mkState (pc st) (s st) (props st) (waiting st) (plock st) x
          (vars st) (collector st) (children st).

Definition set_var (w : poly) (x : slice (ptr SchemaProxy)) (st : State) : State :=
  mkState (pc st) (s st) (props st) (waiting st) (plock st) (finished st)
          (<[w := x]> (vars st)) (collector st) (children st).

Definition set_collector (w : poly) (x : CollectorPc) (st : State) : State :=
  mkState (pc st) (s st) (props st) (waiting st) (plock st) (finished st)
          (vars st) (<[w := x]> (collector st)) (children st).

Definition set_children (w : poly) (x : list (ValueReference (ptr base.SchemaProxy)))
    (st : State) : State :=
  mkState (pc st) (s st) (props st) (waiting st) (plock st) (finished st)
          (vars st) (collector st) (<[w := x]> (children st)).

(** Assignments to the structural fields of [s]. *)
Definition with_structure (x : Schema) (pr : ptr mapref)
    (f : poly → slice (ptr SchemaProxy)) : Schema :=
  {| SchemaTypeRef := SchemaTypeRef x; Title := Title x; MultipleOf := MultipleOf x;
     Maximum := Maximum x; ExclusiveMaximumBool := ExclusiveMaximumBool x;
     ExclusiveMaximum := ExclusiveMaximum x; Minimum := Minimum x;
     ExclusiveMinimum := ExclusiveMinimum x;
     ExclusiveMinimumBool := ExclusiveMinimumBool x; MaxLength := MaxLength x;
     MinLength := MinLength x; Pattern := Pattern x; Format := Format x;
     MaxItems := MaxItems x; MinItems := MinItems x; UniqueItems := UniqueItems x;
     MaxProperties := MaxProperties x; MinProperties := MinProperties x;
     Required := Required x; Enum := Enum x; Type_ := Type_ x;
     AllOf := f allOf; OneOf := f oneOf; AnyOf := f anyOf; Not := f not_;
     Items := f items; Properties := pr;
     AdditionalProperties := AdditionalProperties x; Description := Description x;
     Default := Default x; Nullable := Nullable x; Discriminator_ := Discriminator_ x;
     ReadOnly := ReadOnly x; WriteOnly := WriteOnly x; XML_ := XML_ x;
     ExternalDocs := ExternalDocs x; Example := Example x; Examples := Examples x;
     Deprecated := Deprecated x; Extensions := Extensions x; low := low x |}.

(** The field of [s] that belongs to a variable: [s.AllOf] for [allOf], ... *)
Definition field (w : poly) (x : Schema) : slice (ptr SchemaProxy) :=
  match w with
  | allOf => AllOf x
  | oneOf => OneOf x
  | anyOf => AnyOf x
  | not_ => Not x
  | items => Items x
  end.

Definition set_field (w : poly) (v : slice (ptr SchemaProxy)) (x : Schema) : Schema :=
  with_structure x (Properties x) (<[w := v]> (fun w' => field w' x)).

Definition set_Properties (pr : ptr mapref) (x : Schema) : Schema :=
  with_structure x pr (fun w' => field w' x).

(** Which goroutine moves.  Channels are unbuffered, so a send and its
    receive are one step of both goroutines. *)
Inductive Action : Type :=
| AMain                        (* main: its next statement, other than the two below *)
| AGoProps (i : nat)           (* main, line 184-185: the range yields the i-th remaining entry *)
| ARecvPoly (w : poly)         (* main, line 218, with line 164 of buildOutSchema for w *)
| ARecvProps                   (* main, line 223, with line 180 of the lock holder *)
| ALock (i : nat)              (* line 172 of the i-th waiting buildProps *)
| AHolder                      (* the lock holder: line 173, line 179 or the unlock *)
| ACollector (w : poly)        (* buildOutSchema for w: line 154 or lines 160-161 *)
| AChildSend (w : poly) (i : nat). (* line 159, with line 150 of the i-th pending child *)

(** The test shared by both select cases, lines 220 and 225. *)
Definition after_signal (sch : base.Schema) (completeChildren completedProps : nat)
  : MainPc :=
  if bool_decide (totalProps sch = completedProps)
     && bool_decide (totalChildren sch = completeChildren)
  then MAssign assign_order
  else MSelect completeChildren completedProps.

(** One step of the goroutine the action names.  The result is [None] when
    that goroutine is not at such a statement, or when the statement cannot
    proceed: [Lock] while the mutex is held, a send or a receive without its
    partner, the select with no sender ready.  A [go] statement puts the new
    goroutine at its first statement; buildSchemaChild has one step, its
    send, and builds its proxy on the way.  Every step is atomic, which is
    what Go gives to an execution without a data race; [race_free] tells the
    returns of such executions from those at which main has read a variable
    that a buildOutSchema goroutine may be appending to. *)
Definition step (sch : base.Schema) (a : Action) (st : State) : option State :=
  match a with
  | AMain =>
      match pc st with
      | MRangeProps [] => Some (set_pc (MGoPoly go_order) st)
      | MRangeProps (_ :: _) => None
      | MGoPoly (w :: rest) =>
          Some (set_pc (MGoPoly rest)
                  (if negb (IsEmpty (source sch w))
                   then set_collector w (OSpawn 0) st else st))
      | MGoPoly [] =>
          Some (set_pc (if bool_decide (0 < totalProps sch + totalChildren sch)
                        then MSelect 0 0 else MAssign assign_order) st)
      | MSelect _ _ => None
      | MAssign (w :: rest) =>
          Some (set_pc (MAssign rest) (set_s (set_field w (vars st w) (s st)) st))
      | MAssign [] => Some (set_pc MReturned st)
      | MReturned => None
      end
  | AGoProps i =>
      match pc st with
      | MRangeProps todo =>
          match todo !! i with
          | Some e =>
              Some (set_pc (MRangeProps (delete i todo))
                      (set_waiting (waiting st ++ [e]) st))
          | None => None
          end
      | _ => None
      end
  | ARecvPoly w =>
      match pc st, collector st w with
      | MSelect cc cp, OCollect j =>
          if bool_decide (j < length (schemas sch w)) then None
          else Some (set_pc (after_signal sch (S cc) cp) (set_collector w ODone st))
      | _, _ => None
      end
  | ARecvProps =>
      match pc st, plock st with
      | MSelect cc cp, Some (e, HSend) =>
          Some (set_pc (after_signal sch cc (S cp)) (set_plock (Some (e, HUnlock)) st))
      | _, _ => None
      end
  | ALock i =>
      match plock st, waiting st !! i with
      | None, Some e =>
          Some (set_plock (Some (e, HInsert)) (set_waiting (delete i (waiting st)) st))
      | _, _ => None
      end
  | AHolder =>
      match plock st with
      | Some (e, HInsert) =>
          Some (set_plock (Some (e, HAssign))
                  (set_props (<[krValue e.1 := Some (prop_proxy e.1 e.2)]> (props st)) st))
      | Some (e, HAssign) =>
          Some (set_plock (Some (e, HSend))
                  (set_s (set_Properties (Some props_ref) (s st)) st))
      | Some (e, HSend) => None
      | Some (e, HUnlock) =>
          Some (set_plock None (set_finished (e :: finished st) st))
      | None => None
      end
  | ACollector w =>
      match collector st w with
      | OSpawn v =>
          match schemas sch w !! v with
          | Some c =>
              Some (set_collector w (OSpawn (S v))
                      (set_children w (children st w ++ [c]) st))
          | None => Some (set_collector w (OCollect 0) st)
          end
      | OAppend j t =>
          Some (set_collector w (OCollect j) (set_var w (append (vars st w) t) st))
      | _ => None
      end
  | AChildSend w i =>
      match collector st w, children st w !! i with
      | OCollect j, Some c =>
          if bool_decide (j < length (schemas sch w))
          then Some (set_collector w (OAppend (S j) (Some (child_proxy c)))
                       (set_children w (delete i (children st w)) st))
          else None
      | _, _ => None
      end
  end.

(** The state at line 183: [s] holds the copied fields, [props] is the empty
    map just made, no goroutine exists.  The range of line 184 visits the
    entries of the map in an order of Go's choosing. *)
Definition init (sch : base.Schema) : State :=
  {| pc := MRangeProps (map_to_list (Value (base.Properties sch)));
     s := NewSchema_fields sch;
     props := ∅;
     waiting := [];
     plock := None;
     finished := [];
     vars := fun _ => None;
     collector := fun _ => OIdle;
     children := fun _ => [] |}.

(** A schedule is the list of goroutine moves, in order. *)
Fixpoint run (sch : base.Schema) (sched : list Action) (st : State) : option State :=
  match sched with
  | [] => Some st
  | a :: sched' =>
      match step sch a st with
      | Some st' => run sch sched' st'
      | None => None
      end
  end.

(** NewSchema has executed [return s]. *)
Definition returned (st : State) : Prop := pc st = MReturned.

(** No goroutine can move. *)
Definition stuck (sch : base.Schema) (st : State) : Prop :=
  ∀ a, step sch a st = None.

(** The map a caller finds behind [s.Properties]: nil, or the object [props]. *)
Definition Properties_of (st : State) : ptr (gmap string (ptr SchemaProxy)) :=
  match Properties (s st) with
  | Some props_ref => Some (props st)
  | None => None
  end.

(** NewSchema under a schedule.  The result is the object the returned [s]
    points to, with the map behind [s.Properties], when the schedule can be
    followed and ends with [return s]; there is none otherwise. *)
Definition NewSchema (sch : base.Schema) (sched : list Action)
  : option (Schema * ptr (gmap string (ptr SchemaProxy))) :=
  match run sch sched (init sch) with
  | Some st =>
      match pc st with
      | MReturned => Some (s st, Properties_of st)
      | _ => None
      end
  | None => None
  end.

(** *** GoLow, lines 240-242 *)

(** [func (s *Schema) GoLow() *base.Schema { return s.low }] *)
Definition GoLow (x : Schema) : ptr base.Schema := low x.

(** ** The scalar fields *)

(** Two schema objects that differ at most in their structural fields. *)
Definition same_scalars (x y : Schema) : Prop :=
  with_structure x None (fun _ => None) = with_structure y None (fun _ => None).

(** ** Which dialect form a union field carries *)



(** The field is present and populated with both forms. *)
Definition uses_both {TA TB} (n : NodeReference (base.SchemaDynamicValue TA TB)) : Prop :=
  IsEmpty n = false ∧ base.IsA (Value n) = true ∧ base.IsB (Value n) = true.

(** The field is absent, or populated with neither form. *)
Definition uses_neither {TA TB} (n : NodeReference (base.SchemaDynamicValue TA TB)) : Prop :=
  IsEmpty n = true ∨ (base.IsA (Value n) = false ∧ base.IsB (Value n) = false).

(** ** The buildProps goroutines *)

(** The entries the range of line 184 has still to visit. *)
Definition todo_of (p : MainPc) : list PropEntry :=
  match p with
  | MRangeProps todo => todo
  | _ => []
  end.

(** The buildProps goroutine inside the critical section, if any. *)
Definition holder (st : State) : list PropEntry :=
  match plock st with
  | Some (e, _) => [e]
  | None => []
  end.

(** The goroutines that have executed the insert of line 173. *)
Definition inserted (st : State) : list PropEntry :=
  match plock st with
  | Some (e, (HAssign | HSend | HUnlock)) => e :: finished st
  | _ => finished st
  end.

(** The goroutines that have executed the assignment of line 179. *)
Definition assigned (st : State) : list PropEntry :=
  match plock st with
  | Some (e, (HSend | HUnlock)) => e :: finished st
  | _ => finished st
  end.

(** The goroutines whose send of line 180 main has received. *)
Definition signalled (st : State) : list PropEntry :=
  match plock st with
  | Some (e, HUnlock) => e :: finished st
  | _ => finished st
  end.

(** What holds of the properties map and its writers in every state. *)
Record props_inv (sch : base.Schema) (st : State) : Prop := mkPropsInv {
  (* every source entry has exactly one goroutine, spawned or still to spawn *)
  pi_perm :
    todo_of (pc st) ++ waiting st ++ holder st ++ finished st
    ≡ₚ map_to_list (Value (base.Properties sch));
  (* whatever the map holds was put there by one of the inserts *)
  pi_lookup : ∀ name q, props st !! name = Some q →
    ∃ e, e ∈ inserted st ∧ krValue e.1 = name ∧ q = Some (prop_proxy e.1 e.2);
  (* every insert left its name in the map *)
  pi_dom : ∀ e, e ∈ inserted st → is_Some (props st !! krValue e.1);
  (* s.Properties is nil until the first assignment, the map after it *)
  pi_nil : assigned st = [] → Properties (s st) = None;
  pi_set : assigned st ≠ [] → Properties (s st) = Some props_ref;
  (* completedProps counts the sends received *)
  pi_count :
    match pc st with
    | MRangeProps _ | MGoPoly _ => signalled st = []
    | MSelect _ cp => cp = length (signalled st)
    | MAssign _ | MReturned => length (signalled st) = totalProps sch
    end
}.

(** The key names of the source properties are pairwise distinct. *)
Definition distinct_names (sch : base.Schema) : Prop :=
  NoDup ((fun e : PropEntry => krValue e.1) <$> map_to_list (Value (base.Properties sch))).

(** The number of entries of a map value; a nil map has none. *)
Definition map_len {K V} `{Countable K} (m : ptr (gmap K V)) : nat :=
  from_option size 0 m.

(** Modelled from the spec: the presence flag of the low-level reference of
    a source properties entry.  The spec gives every low-level node a
    presence flag that tells an absent field from a present one; the
    reference of an entry is its value reference, which carries the one node
    of the value and is absent when it has none. *)
Definition entry_IsEmpty {T} (v : ValueReference T) : bool :=
  bool_decide (vrValueNode v = None).

(** The map the inserts of the given buildProps goroutines build when no two
    of them share a name. *)
Definition props_of (l : list PropEntry) : gmap string (ptr SchemaProxy) :=
  list_to_map ((fun e : PropEntry => (krValue e.1, Some (prop_proxy e.1 e.2))) <$> l).

(** ** The buildOutSchema goroutines and the select loop *)

(** A sum over the five variables. *)
Definition sum_poly (f : poly → nat) : nat :=
  f allOf + f oneOf + f anyOf + f not_ + f items.

(** The number of buildOutSchema goroutines NewSchema starts: one for each
    array whose reference is not empty.  Each sends on [polyCompletedChan]
    once (line 164). *)
Definition dispatched (sch : base.Schema) : nat :=
  sum_poly (fun w => if IsEmpty (source sch w) then 0 else 1).

(** The number of those sends main has received. *)
Definition done_bit (c : CollectorPc) : nat :=
  match c with
  | ODone => 1
  | _ => 0
  end.

Definition done_count (st : State) : nat :=
  sum_poly (fun w => done_bit (collector st w)).

(** What holds of the select loop in every state. *)
Record await_inv (sch : base.Schema) (st : State) : Prop := mkAwaitInv {
  (* only the arrays that passed the test of lines 194-208 have a goroutine *)
  ai_started : ∀ w, collector st w ≠ OIdle → IsEmpty (source sch w) = false;
  (* completeChildren counts the sends received on polyCompletedChan *)
  ai_count :
    match pc st with
    | MRangeProps _ | MGoPoly _ => done_count st = 0
    | MSelect cc _ => cc = done_count st
    | MAssign _ | MReturned => totalChildren sch ≤ dispatched sch
    end
}.

(** ** A build with nothing to dispatch *)

(** What holds in every state of a build whose source has no property and no
    composition entry: main is never in the range body nor in the select, no
    buildProps goroutine exists, no child exists, and nothing was stored. *)
Record quiet_inv (st : State) : Prop := mkQuietInv {
  qi_pc :
    match pc st with
    | MRangeProps (_ :: _) | MSelect _ _ => False
    | _ => True
    end;
  qi_waiting : waiting st = [];
  qi_plock : plock st = None;
  qi_Properties : Properties (s st) = None;
  qi_vars : ∀ w, vars st w = None;
  qi_field : ∀ w, field w (s st) = None;
  qi_children : ∀ w, children st w = [];
  qi_collector : ∀ w j t, collector st w ≠ OAppend j t
}.

(** ** The work of a build *)

(** The steps one buildOutSchema goroutine and its children can take, and
    the dispatch test in front of it. *)
Definition poly_budget (sch : base.Schema) (w : poly) : nat :=
  4 * length (schemas sch w) + 3.

Fixpoint budget (sch : base.Schema) (l : list poly) : nat :=
  match l with
  | [] => 0
  | w :: l' => poly_budget sch w + budget sch l'
  end.

(** The steps each goroutine has left, at most. *)
Definition main_weight (sch : base.Schema) (p : MainPc) : nat :=
  match p with
  | MRangeProps todo => 9 + 6 * length todo + budget sch go_order
  | MGoPoly rest => 8 + budget sch rest
  | MSelect _ _ => 7
  | MAssign rest => 1 + length rest
  | MReturned => 0
  end.

Definition holder_weight (h : option (PropEntry * HolderPc)) : nat :=
  match h with
  | None => 0
  | Some (_, HInsert) => 4
  | Some (_, HAssign) => 3
  | Some (_, HSend) => 2
  | Some (_, HUnlock) => 1
  end.

Definition collector_weight (n : nat) (c : CollectorPc) : nat :=
  match c with
  | OIdle => 0
  | OSpawn v => 2 * (n - v) + 2 * n + 2
  | OCollect j => 2 * (n - j) + 1
  | OAppend j _ => 2 * (n - j) + 2
  | ODone => 0
  end.

Definition measure (sch : base.Schema) (st : State) : nat :=
  main_weight sch (pc st)
  + 5 * length (waiting st)
  + holder_weight (plock st)
  + sum_poly (fun w => collector_weight (length (schemas sch w)) (collector st w)
                       + length (children st w)).

(** ** The proxies of a build *)

(** The pointer is non-nil and points to a proxy NewSchema built around one
    entry of the source: a composition entry or a property. *)
Definition built_here (sch : base.Schema) (q : ptr SchemaProxy) : Prop :=
  (∃ w c, c ∈ schemas sch w ∧ q = Some (child_proxy c))
  ∨ (∃ k v, Value (base.Properties sch) !! k = Some v ∧ q = Some (prop_proxy k v)).

(** The pointer is held somewhere in the state: in the map, in one of the
    five variables, in a field of [s], or by a collector about to append. *)
Definition stored (st : State) (q : ptr SchemaProxy) : Prop :=
  (∃ name, props st !! name = Some q)
  ∨ (∃ w, q ∈ elems (vars st w))
  ∨ (∃ w, q ∈ elems (field w (s st)))
  ∨ (∃ w j, collector st w = OAppend j q).

Record proxy_inv (sch : base.Schema) (st : State) : Prop := mkProxyInv {
  xi_children : ∀ w c, c ∈ children st w → c ∈ schemas sch w;
  xi_pending : ∀ w j t, collector st w = OAppend j t → built_here sch t;
  xi_vars : ∀ w q, q ∈ elems (vars st w) → built_here sch q;
  xi_field : ∀ w q, q ∈ elems (field w (s st)) → built_here sch q
}.

(** ** Channels *)

(** The channels NewSchema makes: lines 135-137, and line 142 once for each
    buildOutSchema. *)
Inductive chan : Type :=
| polyCompletedChan
| propsChan
| errChan
| bChan (w : poly).

(** The channel a step sends and receives on, if it communicates.  [errChan]
    is passed to buildOutSchema as [e] (lines 195-207) and used by no
    statement. *)
Definition channel_of (a : Action) : option chan :=
  match a with
  | ARecvPoly _ => Some polyCompletedChan
  | ARecvProps => Some propsChan
  | AChildSend w _ => Some (bChan w)
  | AMain | AGoProps _ | ALock _ | AHolder | ACollector _ => None
  end.

(** [new(Schema)] with the two fields NewSchema sets whatever the source
    holds: the extension map and the back-reference. *)
Definition defaults_for (sch : base.Schema) : Schema :=
  {| SchemaTypeRef := ""; Title := ""; MultipleOf := 0; Maximum := 0;
     ExclusiveMaximumBool := false; ExclusiveMaximum := 0; Minimum := 0;
     ExclusiveMinimum := 0; ExclusiveMinimumBool := false; MaxLength := 0;
     MinLength := 0; Pattern := ""; Format := ""; MaxItems := 0; MinItems := 0;
     UniqueItems := 0; MaxProperties := 0; MinProperties := 0;
     Required := None; Enum := None; Type_ := None;
     AllOf := None; OneOf := None; AnyOf := None; Not := None; Items := None;
     Properties := None; AdditionalProperties := None; Description := "";
     Default := None; Nullable := false; Discriminator_ := None;
     ReadOnly := false; WriteOnly := false; XML_ := None; ExternalDocs := None;
     Example := None; Examples := None; Deprecated := false;
     Extensions := Some (ExtractExtensions (base.Extensions sch));
     low := Some sch |}.

(** ** Progress *)

(** Which buildOutSchema goroutines exist: none before the dispatch tests,
    afterwards one for each array whose reference is not empty. *)
Definition started (sch : base.Schema) (p : MainPc) (c : poly → CollectorPc) : Prop :=
  match p with
  | MRangeProps _ => ∀ w, c w = OIdle
  | MGoPoly rest =>
      NoDup rest
      ∧ (∀ w, w ∈ rest → c w = OIdle)
      ∧ (∀ w, w ∉ rest → IsEmpty (source sch w) = false → c w ≠ OIdle)
  | _ => ∀ w, IsEmpty (source sch w) = false → c w ≠ OIdle
  end.

(** How many children of a buildOutSchema goroutine are still to be
    received. *)
Definition children_count (n : nat) (c : CollectorPc)
    (pending : list (ValueReference (ptr base.SchemaProxy))) : Prop :=
  match c with
  | OIdle => pending = []
  | OSpawn v => length pending = v ∧ v ≤ n
  | OCollect j | OAppend j _ => length pending + j = n
  | ODone => True
  end.

(** What holds of the goroutines' positions in every state; main stays in
    the select only while a completion is outstanding. *)
Record live_inv (sch : base.Schema) (st : State) : Prop := mkLiveInv {
  li_started : started sch (pc st) (collector st);
  li_children : ∀ w,
    children_count (length (schemas sch w)) (collector st w) (children st w);
  li_open :
    match pc st with
    | MSelect cc cp => ¬ (totalProps sch = cp ∧ totalChildren sch = cc)
    | _ => True
    end
}.

(** Some goroutine can move. *)
Definition can_step (sch : base.Schema) (st : State) : Prop :=
  ∃ a, is_Some (step sch a st).

(** ** What a buildOutSchema goroutine has collected *)

(** The proxies buildSchemaChild builds for a list of entries (lines 146-149),
    as pointers. *)
Definition proxies (l : list (ValueReference (ptr base.SchemaProxy)))
  : list (ptr SchemaProxy) :=
  (fun c => Some (child_proxy c)) <$> l.

(** The proxy a goroutine holds between the receive of line 159 and the
    append of line 161. *)
Definition in_hand (c : CollectorPc) : list (ptr SchemaProxy) :=
  match c with
  | OAppend _ t => [t]
  | _ => []
  end.

(** The entries for which the loop of line 153 has started a child. *)
Definition spawned (l : list (ValueReference (ptr base.SchemaProxy))) (c : CollectorPc)
  : list (ValueReference (ptr base.SchemaProxy)) :=
  match c with
  | OIdle => []
  | OSpawn v => take v l
  | _ => l
  end.

(** What holds of each buildOutSchema goroutine in every state. *)
Record collect_inv (sch : base.Schema) (st : State) : Prop := mkCollectInv {
  (* the proxies appended, in hand or still to be sent are those of the
     entries a child was started for, each once *)
  ci_account : ∀ w,
    elems (vars st w) ++ in_hand (collector st w) ++ proxies (children st w)
    ≡ₚ proxies (spawned (schemas sch w) (collector st w));
  (* a variable no goroutine was started for is nil *)
  ci_idle : ∀ w, collector st w = OIdle → vars st w = None;
  (* a goroutine that has signalled has received every child *)
  ci_done : ∀ w, collector st w = ODone → children st w = [];
  (* append never yields an empty slice *)
  ci_nonempty : ∀ w, vars st w ≠ Some []
}.

(** The goroutine of a variable will not write to it any more: there is
    none, or it has signalled. *)
Definition settled (c : CollectorPc) : Prop := c = OIdle ∨ c = ODone.

(** What holds of the five slices of [s] in every state. *)
Record result_inv (sch : base.Schema) (st : State) : Prop := mkResultInv {
  ri_field : ∀ w,
    elems (field w (s st)) ⊆+ proxies (schemas sch w) ∧ field w (s st) ≠ Some [];
  (* main leaves the select after exactly totalChildren signals *)
  ri_joined :
    match pc st with
    | MAssign _ | MReturned => done_count st = totalChildren sch
    | _ => True
    end;
  (* a field assigned from a settled variable still equals it *)
  ri_final : ∀ w, settled (collector st w) →
    match pc st with
    | MAssign rest => w ∉ rest → field w (s st) = vars st w
    | MReturned => field w (s st) = vars st w
    | _ => True
    end
}.

(** Everything that holds in every state of a build. *)
Record build_inv (sch : base.Schema) (st : State) : Prop := mkBuildInv {
  bi_props : props_inv sch st;
  bi_await : await_inv sch st;
  bi_live : live_inv sch st;
  bi_collect : collect_inv sch st;
  bi_result : result_inv sch st
}.

(** The value of [s.Properties] a build returns when the source names are
    pairwise distinct: nil without a property, else the map of every entry. *)
Definition expected_Properties (sch : base.Schema)
  : ptr (gmap string (ptr SchemaProxy)) :=
  if decide (totalProps sch = 0) then None
  else Some (props_of (map_to_list (Value (base.Properties sch)))).

(** ** Returns without a data race *)

(** The appends of line 161 and main's reads of lines 231-235 are on the
    same variable, and the interleaving of [step] gives them an order.  Go
    orders them when the goroutine has sent on [polyCompletedChan] and main
    has received that send before it left the select; and there is no append
    when no goroutine was started for the variable, or when its array has no
    entry.  A return at which one of the three holds of every variable is
    the return of an execution in which no read is concurrent with a write;
    at any other return main has read a slice that another goroutine may be
    writing. *)
Definition race_free (sch : base.Schema) (st : State) : Prop :=
  ∀ w, collector st w = OIdle ∨ collector st w = ODone ∨ schemas sch w = [].

(** ** Low-level schemas used as concrete inputs *)

Definition absent {T} (zero : T) : NodeReference T := mkNodeReference zero None None.

Definition present {T} (v : T) (n : Node) : NodeReference T :=
  mkNodeReference v (Some n) None.

Definition no_union {TA TB} (a : TA) (b : TB) : base.SchemaDynamicValue TA TB :=
  base.mkSchemaDynamicValue false false a b.

(** A low-level schema with the given structural children and every other
    field absent. *)
Definition structural
    (all one any nt its : NodeReference (list (ValueReference (ptr base.SchemaProxy))))
    (pr : NodeReference (gmap (KeyReference string) (ValueReference (ptr base.SchemaProxy))))
  : base.Schema :=
  {| base.Title := absent ""; base.MultipleOf := absent 0%Z; base.Maximum := absent 0%Z;
     base.ExclusiveMaximum := absent (no_union false 0%Z);
     base.Minimum := absent 0%Z;
     base.ExclusiveMinimum := absent (no_union false 0%Z);
     base.MaxLength := absent 0%Z; base.MinLength := absent 0%Z;
     base.Pattern := absent ""; base.Format := absent "";
     base.MaxItems := absent 0%Z; base.MinItems := absent 0%Z;
     base.UniqueItems := absent 0%Z;
     base.MaxProperties := absent 0%Z; base.MinProperties := absent 0%Z;
     base.Required := absent []; base.Enum := absent [];
     base.Type_ := absent (no_union "" []);
     base.AllOf := all; base.OneOf := one; base.AnyOf := any; base.Not := nt;
     base.Items := its; base.Properties := pr;
     base.AdditionalProperties := absent None; base.Description := absent "";
     base.Default := absent None; base.Nullable := absent false;
     base.Discriminator_ := absent None; base.ReadOnly := absent false;
     base.WriteOnly := absent false; base.XML_ := absent None;
     base.ExternalDocs := absent None; base.Example := absent None;
     base.Deprecated := absent false; base.Extensions := 0%N |}.

(** A low-level schema without structural children, for the scalar and
    dialect fields. *)
Definition flat
    (maxi : NodeReference Z)
    (exmax exmin : NodeReference (base.SchemaDynamicValue bool Z))
    (uniq : NodeReference Z)
    (ty : NodeReference (base.SchemaDynamicValue string (list (ValueReference string))))
  : base.Schema :=
  {| base.Title := absent ""; base.MultipleOf := absent 0%Z; base.Maximum := maxi;
     base.ExclusiveMaximum := exmax;
     base.Minimum := absent 0%Z;
     base.ExclusiveMinimum := exmin;
     base.MaxLength := absent 0%Z; base.MinLength := absent 0%Z;
     base.Pattern := absent ""; base.Format := absent "";
     base.MaxItems := absent 0%Z; base.MinItems := absent 0%Z;
     base.UniqueItems := uniq;
     base.MaxProperties := absent 0%Z; base.MinProperties := absent 0%Z;
     base.Required := absent []; base.Enum := absent [];
     base.Type_ := ty;
     base.AllOf := absent []; base.OneOf := absent []; base.AnyOf := absent [];
     base.Not := absent []; base.Items := absent []; base.Properties := absent ∅;
     base.AdditionalProperties := absent None; base.Description := absent "";
     base.Default := absent None; base.Nullable := absent false;
     base.Discriminator_ := absent None; base.ReadOnly := absent false;
     base.WriteOnly := absent false; base.XML_ := absent None;
     base.ExternalDocs := absent None; base.Example := absent None;
     base.Deprecated := absent false; base.Extensions := 0%N |}.

(** [maximum: 10] with the boolean form [exclusiveMaximum: true], and the
    numeric form [exclusiveMinimum: 5]; [type: "string"]. *)
Definition bounded_string : base.Schema :=
  flat (present 10%Z 40%N)
       (present (base.mkSchemaDynamicValue true false true 0%Z) 41%N)
       (present (base.mkSchemaDynamicValue false true false 5%Z) 42%N)
       (absent 0%Z)
       (present (base.mkSchemaDynamicValue true false "string" []) 43%N).


(** [uniqueItems] present in the source, with value 1. *)
Definition unique_items : base.Schema :=
  flat (absent 0%Z) (absent (no_union false 0%Z)) (absent (no_union false 0%Z))
       (present 1%Z 60%N) (absent (no_union "" [])).

(** The schema of an empty mapping node: nothing present. *)
Definition empty_schema : base.Schema :=
  structural (absent []) (absent []) (absent []) (absent []) (absent []) (absent ∅).

(** Two nested schemas, at nodes 11 and 12. *)
Definition ref_a : ValueReference (ptr base.SchemaProxy) := mkValueReference (Some 1%N) (Some 11%N).
Definition ref_b : ValueReference (ptr base.SchemaProxy) := mkValueReference (Some 2%N) (Some 12%N).

(** [allOf: [a, b]] and nothing else. *)
Definition two_allOf : base.Schema :=
  structural (present [ref_a; ref_b] 10%N) (absent []) (absent []) (absent [])
             (absent []) (absent ∅).

(** [allOf: [a, b]] next to [anyOf: []]. *)
Definition two_allOf_empty_anyOf : base.Schema :=
  structural (present [ref_a; ref_b] 10%N) (absent []) (present [] 20%N) (absent [])
             (absent []) (absent ∅).

(** The mapping [properties: {a: ..., a: ...}]: one name under two key nodes. *)
Definition key_a1 : KeyReference string := mkKeyReference "a" (Some 31%N).
Definition key_a2 : KeyReference string := mkKeyReference "a" (Some 32%N).

Definition twice_a : base.Schema :=
  structural (absent []) (absent []) (absent []) (absent []) (absent [])
             (present (<[key_a1 := ref_a]> (<[key_a2 := ref_b]> ∅)) 30%N).

(** [properties: {a: ..., b: ...}]. *)
Definition key_b : KeyReference string := mkKeyReference "b" (Some 33%N).

Definition props_a_b : base.Schema :=
  structural (absent []) (absent []) (absent []) (absent []) (absent [])
             (present (<[key_a1 := ref_a]> (<[key_b := ref_b]> ∅)) 30%N).

(** [anyOf: []] and nothing else: a reference that is present, with no entry. *)
Definition empty_anyOf : base.Schema :=
  structural (absent []) (absent []) (present [] 20%N) (absent []) (absent [])
             (absent ∅).

(** [properties: {self: ...}], where the nested reference is the low-level
    proxy 7 of the schema that is being built: a schema that refers back to
    itself. *)
Definition self_ref : base.Schema :=
  structural (absent []) (absent []) (absent []) (absent []) (absent [])
             (present (<[mkKeyReference "self" (Some 71%N)
                         := mkValueReference (Some 7%N) (Some 72%N)]> ∅) 70%N).

(** [allOf: [a]] next to [oneOf: []] and [anyOf: []]. *)
Definition one_allOf_two_empty : base.Schema :=
  structural (present [ref_a] 10%N) (present [] 21%N) (present [] 20%N) (absent [])
             (absent []) (absent ∅).

(** ** Schedules *)

(** A schedule of the main goroutine alone, for a schema with no property
    and no composition entry: leave the range, pass the five dispatch tests
    and the test of line 214, assign the five fields, return. *)
Definition main_only : list Action :=
  [AMain; AMain; AMain; AMain; AMain; AMain; AMain;
   AMain; AMain; AMain; AMain; AMain; AMain].

(** A schedule for a schema with one property and no composition entry. *)
Definition one_prop_schedule : list Action :=
  [AGoProps 0; AMain; AMain; AMain; AMain; AMain; AMain; AMain;
   ALock 0; AHolder; AHolder; ARecvProps; AHolder;
   AMain; AMain; AMain; AMain; AMain; AMain].

(** A schedule for a schema with two properties and no composition entry:
    main spawns both buildProps, passes the dispatch tests and enters the
    select; each buildProps in turn locks, inserts, assigns, signals and
    unlocks; main assigns the five fields and returns. *)
Definition two_props_schedule : list Action :=
  [AGoProps 0; AGoProps 0; AMain; AMain; AMain; AMain; AMain; AMain; AMain;
   ALock 0; AHolder; AHolder; ARecvProps; AHolder;
   ALock 0; AHolder; AHolder; ARecvProps; AHolder;
   AMain; AMain; AMain; AMain; AMain; AMain].

(** A schedule of [two_allOf] that ends with every goroutine blocked or
    ended: main dispatches and enters the select; buildOutSchema spawns the
    two children, receives and appends both proxies and signals; main
    receives the one signal there is, and waits for a second. *)
Definition starving_schedule : list Action :=
  [AMain; AMain; AMain; AMain; AMain; AMain; AMain;
   ACollector allOf; ACollector allOf; ACollector allOf;
   AChildSend allOf 0; ACollector allOf; AChildSend allOf 0; ACollector allOf;
   ARecvPoly allOf].

(** A schedule of [two_allOf_empty_anyOf] that returns: as above, but the
    child built for the second entry is received first, and the goroutine
    for [anyOf] signals as well. *)
Definition swapped_schedule : list Action :=
  [AMain; AMain; AMain; AMain; AMain; AMain; AMain;
   ACollector allOf; ACollector allOf; ACollector allOf;
   AChildSend allOf 1; ACollector allOf; AChildSend allOf 0; ACollector allOf;
   ARecvPoly allOf; ACollector anyOf; ARecvPoly anyOf;
   AMain; AMain; AMain; AMain; AMain; AMain].

(** A schedule of [one_allOf_two_empty] that returns: main dispatches and
    enters the select; the goroutine for [anyOf] finds nothing to spawn and
    signals; main counts one completion, the number it awaits, and goes on
    to the assignments while the goroutine for [allOf] has yet to run. *)
Definition early_schedule : list Action :=
  [AMain; AMain; AMain; AMain; AMain; AMain; AMain;
   ACollector anyOf; ARecvPoly anyOf;
   AMain; AMain; AMain; AMain; AMain; AMain].

(** A schema of annotations: [title], [description], [required], [enum],
    [nullable], [deprecated], a [discriminator] and [externalDocs]; no [xml],
    and no structural child. *)
Definition documented : base.Schema :=
  {| base.Title := present "Pet" 80%N; base.MultipleOf := absent 0%Z;
     base.Maximum := absent 0%Z;
     base.ExclusiveMaximum := absent (no_union false 0%Z);
     base.Minimum := present 1%Z 81%N;
     base.ExclusiveMinimum := absent (no_union false 0%Z);
     base.MaxLength := absent 0%Z; base.MinLength := absent 0%Z;
     base.Pattern := absent ""; base.Format := absent "";
     base.MaxItems := absent 0%Z; base.MinItems := absent 0%Z;
     base.UniqueItems := absent 0%Z;
     base.MaxProperties := absent 0%Z; base.MinProperties := absent 0%Z;
     base.Required :=
       present [mkValueReference "id" (Some 83%N); mkValueReference "name" (Some 84%N)]
               82%N;
     base.Enum :=
       present [mkValueReference "cat" (Some 86%N); mkValueReference "dog" (Some 87%N)]
               85%N;
     base.Type_ := absent (no_union "" []);
     base.AllOf := absent []; base.OneOf := absent []; base.AnyOf := absent [];
     base.Not := absent []; base.Items := absent []; base.Properties := absent ∅;
     base.AdditionalProperties := absent None;
     base.Description := present "A pet" 88%N;
     base.Default := absent None; base.Nullable := present true 89%N;
     base.Discriminator_ := present (Some 5%N) 90%N; base.ReadOnly := absent false;
     base.WriteOnly := absent false; base.XML_ := absent None;
     base.ExternalDocs := present (Some 6%N) 91%N; base.Example := absent None;
     base.Deprecated := present true 92%N; base.Extensions := 9%N |}.

(** [properties: {a: ...}] next to [anyOf: []]. *)
Definition prop_a_empty_anyOf : base.Schema :=
  structural (absent []) (absent []) (present [] 20%N) (absent []) (absent [])
             (present (<[key_a1 := ref_a]> ∅) 30%N).

(** A schedule of [prop_a_empty_anyOf] in which the goroutine for [anyOf]
    signals first: main counts a completion where it awaits none. *)
Definition overshoot_schedule : list Action :=
  [AGoProps 0; AMain; AMain; AMain; AMain; AMain; AMain; AMain;
   ACollector anyOf; ARecvPoly anyOf].

(** A schema whose unions carry both forms: [exclusiveMaximum] with the
    boolean true and the number 3, [type] with the string "string" and the
    list ["null"]. *)
Definition both_forms : base.Schema :=
  flat (absent 0%Z)
       (present (base.mkSchemaDynamicValue true true true 3%Z) 41%N)
       (absent (no_union false 0%Z))
       (absent 0%Z)
       (present (base.mkSchemaDynamicValue true true "string"
                   [mkValueReference "null" (Some 52%N)]) 50%N).

(** A schedule of [two_allOf_empty_anyOf] that returns, as
    [swapped_schedule], with the children received in source order. *)
Definition ordered_schedule : list Action :=
  [AMain; AMain; AMain; AMain; AMain; AMain; AMain;
   ACollector allOf; ACollector allOf; ACollector allOf;
   AChildSend allOf 0; ACollector allOf; AChildSend allOf 0; ACollector allOf;
   ARecvPoly allOf; ACollector anyOf; ARecvPoly anyOf;
   AMain; AMain; AMain; AMain; AMain; AMain].

(** A reference that is absent: no proxy and no node. *)
Definition absent_ref : ValueReference (ptr base.SchemaProxy) := mkValueReference None None.

(** [properties: {a: }], the key at node 31 and nothing for a value. *)
Definition absent_under_key : base.Schema :=
  structural (absent []) (absent []) (absent []) (absent []) (absent [])
             (present (<[key_a1 := absent_ref]> ∅) 30%N).

(** A schedule of [one_allOf_two_empty] that returns on the signal of the
    goroutine for [allOf], the one array that has an entry: main dispatches
    and enters the select; the goroutine starts its child, receives and
    appends the proxy and signals; main assigns and returns.  The goroutines
    for [oneOf] and [anyOf] have not run. *)
Definition complete_schedule : list Action :=
  [AMain; AMain; AMain; AMain; AMain; AMain; AMain;
   ACollector allOf; ACollector allOf; AChildSend allOf 0; ACollector allOf;
   ARecvPoly allOf;
   AMain; AMain; AMain; AMain; AMain; AMain].

(** What the goroutines for [anyOf] and [oneOf] do after [complete_schedule]:
    each finds nothing to start and goes to its send. *)
Definition late_idle : list Action := [ACollector anyOf; ACollector oneOf].
(** ** Executions *)

(** A property that holds at the start and that every step keeps holds in
    every state a schedule gets to. *)
Lemma run_invariant sch (I : State → Prop) :
  (∀ a st st', I st → step sch a st = Some st' → I st') →
  ∀ sched st st', I st → run sch sched st = Some st' → I st'.
Proof.
  intros Hstep sched. induction sched as [|a sched IH]; intros st st' HI Hrun; simpl in Hrun.
  - by simplify_eq.
  - destruct (step sch a st) as [st1|] eqn:E; [|done]. eauto.
Qed.

(** What a result of NewSchema says about the execution behind it. *)
Lemma NewSchema_Some sch sched x m :
  NewSchema sch sched = Some (x, m) →
  ∃ st, run sch sched (init sch) = Some st
        ∧ returned st ∧ s st = x ∧ Properties_of st = m.
Proof.
  unfold NewSchema, returned. intros H.
  destruct (run sch sched (init sch)) as [st|]; [|done].
  exists st. destruct (pc st); by simplify_eq.
Qed.

Lemma NewSchema_None sch sched :
  (∀ st, run sch sched (init sch) = Some st → ¬ returned st) →
  NewSchema sch sched = None.
Proof.
  unfold NewSchema, returned. intros H.
  destruct (run sch sched (init sch)) as [st|] eqn:E; [|done].
  specialize (H st eq_refl). by destruct (pc st).
Qed.

(** Case analysis on one step: the action, then every test [step] makes. *)
Ltac step_cases H :=
  unfold step, after_signal in H;
  repeat (match type of H with
          | context [match ?x with _ => _ end] => destruct x eqn:?
          end; try discriminate H);
  simplify_eq; simpl in *.

Ltac tests_to_props :=
  repeat match goal with
  | H : _ && _ = true |- _ => apply andb_true_iff in H; destruct H
  | H : _ && _ = false |- _ => apply andb_false_iff in H
  | H : negb _ = true |- _ => apply negb_true_iff in H
  | H : negb _ = false |- _ => apply negb_false_iff in H
  | H : bool_decide _ = true |- _ => apply bool_decide_eq_true in H
  | H : bool_decide _ = false |- _ => apply bool_decide_eq_false in H
  end.

(** Reading a function updated at one variable. *)
Ltac fn_cases :=
  repeat match goal with
  | |- context [<[?w := ?x]> ?f ?w] => rewrite (fn_lookup_insert f w x)
  | H : ?w ≠ ?w' |- context [<[?w := ?x]> ?f ?w'] =>
      rewrite (fn_lookup_insert_ne f w w' x H)
  | |- context [<[?w := ?x]> ?f ?w'] => destruct (decide (w = w')) as [->|?]
  end.

(** ** The scalar fields are settled before the goroutines start *)

Lemma step_same_scalars sch a st st' :
  step sch a st = Some st' → same_scalars (s st') (s st).
Proof. intros H. step_cases H; reflexivity. Qed.

Lemma run_same_scalars sch sched st :
  run sch sched (init sch) = Some st → same_scalars (s st) (NewSchema_fields sch).
Proof.
  apply (run_invariant sch (fun st => same_scalars (s st) (NewSchema_fields sch))).
  - intros a st1 st2 HI Hst. apply step_same_scalars in Hst.
    unfold same_scalars in *. congruence.
  - reflexivity.
Qed.

(** ** Dialect normalisation *)

Lemma elems_append_values acc refs :
  elems (append_values acc refs) = elems acc ++ map vrValue refs.
Proof.
  unfold append_values. revert acc.
  induction refs as [|r refs IH]; intros acc; simpl.
  - by rewrite app_nil_r.
  - rewrite IH. simpl. by rewrite <- app_assoc.
Qed.






Lemma normalise_type_neither t : uses_neither t → normalise_type t = None.
Proof.
  unfold normalise_type.
  intros [He|[Ha Hb]]; [by rewrite He | rewrite Ha, Hb; by rewrite !andb_false_r].
Qed.





(** C8, as stated, fails: NewSchema returns for the empty schema, with a
    [Type] of length zero. *)
Lemma type_empty_for_empty_schema :
  ∃ x m, NewSchema empty_schema main_only = Some (x, m) ∧ len (Type_ x) = 0.
Proof. eexists _, _. split; [vm_compute; reflexivity|reflexivity]. Qed.

(** C8, amended.  Whatever the schedule, the [Type] of the Schema NewSchema
    returns is non-empty when the source field is present in the
    single-string form, or present in the list form with at least one value;
    it is nil when the source field is absent or carries neither form. *)
Theorem type_nonempty_when_populated sch sched x m :
  NewSchema sch sched = Some (x, m) →
  (IsEmpty (base.Type_ sch) = false → base.IsA (Value (base.Type_ sch)) = true →
     0 < len (Type_ x))
  ∧ (IsEmpty (base.Type_ sch) = false → base.IsB (Value (base.Type_ sch)) = true →
     base.B (Value (base.Type_ sch)) ≠ [] → 0 < len (Type_ x))
  ∧ (uses_neither (base.Type_ sch) → Type_ x = None).
Proof.
  intros (st & Hrun & _ & <- & _)%NewSchema_Some. apply run_same_scalars in Hrun.
  pose proof (f_equal Type_ Hrun) as E. simpl in E. rewrite E.
  unfold len, normalise_type. split_and!.
  - intros -> ->. simpl. case_match; [|simpl; lia].
    rewrite elems_append_values. simpl. lia.
  - intros -> -> Hne. simpl. rewrite elems_append_values.
    destruct (base.B (Value (base.Type_ sch))); [done|].
    rewrite length_app. simpl. lia.
  - apply normalise_type_neither.
Qed.

(** NewSchema returns for [bounded_string], of type "string", with a
    non-empty [Type]. *)
Lemma type_nonempty_when_populated_witness :
  ∃ x m, NewSchema bounded_string main_only = Some (x, m) ∧ 0 < len (Type_ x).
Proof.
  destruct (NewSchema bounded_string main_only) as [[x m]|] eqn:E;
    [|by vm_compute in E].
  exists x, m. split; [done|].
  apply (proj1 (type_nonempty_when_populated _ _ _ _ E)); reflexivity.
Defined.

(** ** Scalar constraints *)

(** The scalar constraints NewSchema assigns are the source's values. *)
Lemma scalars_copied sch sched st :
  run sch sched (init sch) = Some st →
  Title (s st) = Value (base.Title sch)
  ∧ MultipleOf (s st) = Value (base.MultipleOf sch)
  ∧ Maximum (s st) = Value (base.Maximum sch)
  ∧ Minimum (s st) = Value (base.Minimum sch)
  ∧ MaxLength (s st) = Value (base.MaxLength sch)
  ∧ MinLength (s st) = Value (base.MinLength sch)
  ∧ Pattern (s st) = Value (base.Pattern sch)
  ∧ Format (s st) = Value (base.Format sch)
  ∧ MaxItems (s st) = Value (base.MaxItems sch)
  ∧ MinItems (s st) = Value (base.MinItems sch)
  ∧ MaxProperties (s st) = Value (base.MaxProperties sch)
  ∧ MinProperties (s st) = Value (base.MinProperties sch).
Proof.
  intros Hrun. apply run_same_scalars in Hrun.
  split_and!;
    [ apply (f_equal Title) in Hrun | apply (f_equal MultipleOf) in Hrun
    | apply (f_equal Maximum) in Hrun | apply (f_equal Minimum) in Hrun
    | apply (f_equal MaxLength) in Hrun | apply (f_equal MinLength) in Hrun
    | apply (f_equal Pattern) in Hrun | apply (f_equal Format) in Hrun
    | apply (f_equal MaxItems) in Hrun | apply (f_equal MinItems) in Hrun
    | apply (f_equal MaxProperties) in Hrun | apply (f_equal MinProperties) in Hrun ];
    exact Hrun.
Qed.

(** No statement of NewSchema assigns [s.UniqueItems]. *)
Lemma uniqueItems_untouched sch sched st :
  run sch sched (init sch) = Some st → UniqueItems (s st) = 0%Z.
Proof. intros Hrun. apply run_same_scalars in Hrun. exact (f_equal UniqueItems Hrun). Qed.

(** C9, at the failing input [unique_items]: the source holds uniqueItems,
    present, with value 1; NewSchema returns, and under every schedule the
    Schema it returns has [UniqueItems] at 0. *)
Theorem uniqueItems_of_source_dropped :
  IsEmpty (base.UniqueItems unique_items) = false
  ∧ Value (base.UniqueItems unique_items) = 1%Z
  ∧ (∃ x m, NewSchema unique_items main_only = Some (x, m))
  ∧ (∀ sched x m, NewSchema unique_items sched = Some (x, m) → UniqueItems x = 0%Z).
Proof.
  split_and!; [reflexivity|reflexivity| |].
  - eexists _, _. vm_compute. reflexivity.
  - intros sched x m (st & Hrun & _ & <- & _)%NewSchema_Some.
    by eapply uniqueItems_untouched.
Qed.

(** ** The properties map *)

Lemma init_props_inv sch : props_inv sch (init sch).
Proof.
  split; simpl; try done.
  - by rewrite app_nil_r.
  - intros e He. by apply elem_of_nil in He.
Qed.

Lemma totalProps_length sch :
  totalProps sch = length (map_to_list (Value (base.Properties sch))).
Proof. unfold totalProps. by rewrite length_map_to_list. Qed.

Ltac perm_tac Hperm :=
  repeat match goal with
  | Hl : ?l !! ?i = Some ?x |- _ =>
      rewrite (delete_Permutation l i x Hl) in Hperm; clear Hl
  end;
  rewrite <- Hperm; solve_Permutation.

Lemma insert_lookup_inv (m : gmap string (ptr SchemaProxy)) (e : PropEntry)
    (l : list PropEntry) :
  (∀ name q, m !! name = Some q →
     ∃ e', e' ∈ l ∧ krValue e'.1 = name ∧ q = Some (prop_proxy e'.1 e'.2)) →
  ∀ name q, <[krValue e.1 := Some (prop_proxy e.1 e.2)]> m !! name = Some q →
     ∃ e', e' ∈ e :: l ∧ krValue e'.1 = name ∧ q = Some (prop_proxy e'.1 e'.2).
Proof.
  intros Hm name q Hq. destruct (decide (krValue e.1 = name)) as [<-|Hne].
  - rewrite lookup_insert_eq in Hq. simplify_eq. exists e. split; [left|done].
  - rewrite lookup_insert_ne in Hq by done.
    destruct (Hm _ _ Hq) as (e' & He' & Hn & Hp). exists e'. split; [by right|done].
Qed.

Lemma insert_dom_inv (m : gmap string (ptr SchemaProxy)) (e : PropEntry)
    (l : list PropEntry) :
  (∀ e', e' ∈ l → is_Some (m !! krValue e'.1)) →
  ∀ e', e' ∈ e :: l →
    is_Some (<[krValue e.1 := Some (prop_proxy e.1 e.2)]> m !! krValue e'.1).
Proof.
  intros Hm e' He'. destruct (decide (krValue e.1 = krValue e'.1)) as [E|E].
  - rewrite E, lookup_insert_eq. eauto.
  - rewrite lookup_insert_ne by done. apply Hm.
    apply elem_of_cons in He' as [->|He']; done.
Qed.

Lemma step_props_inv sch a st st' :
  props_inv sch st → step sch a st = Some st' → props_inv sch st'.
Proof.
  intros [Hperm Hlook Hdom Hnil Hset Hcount] H.
  destruct st as [pc0 s0 props0 waiting0 plock0 finished0 vars0 coll0 child0].
  unfold inserted, assigned, signalled, holder in *. simpl in *.
  step_cases H.
  all: repeat case_match; simplify_eq/=; tests_to_props; subst.
  all: split; unfold inserted, assigned, signalled, holder; simpl; try done.
  all: try (repeat case_match; simplify_eq; done).
  all: try (tests_to_props; simpl in *; lia).
  all: try (by perm_tac Hperm).
  all: try (by apply insert_lookup_inv).
  all: try (by apply insert_dom_inv).
Qed.

Lemma run_props_inv sch sched st :
  run sch sched (init sch) = Some st → props_inv sch st.
Proof.
  apply (run_invariant sch (props_inv sch)); [|apply init_props_inv].
  intros a st1 st2. apply step_props_inv.
Qed.

(** Once main is past the select, every source entry has had its insert and
    its assignment, and nothing else has. *)
Lemma joined_all_inserted sch st :
  props_inv sch st → returned st →
  inserted st ≡ₚ map_to_list (Value (base.Properties sch)) ∧ assigned st = inserted st.
Proof.
  intros [Hperm _ _ _ _ Hcount] Hret. unfold returned in Hret.
  rewrite Hret in Hperm, Hcount. simpl in Hperm.
  rewrite totalProps_length, <- Hperm in Hcount.
  unfold inserted, assigned, signalled, holder in *.
  rewrite !length_app in Hcount.
  destruct (plock st) as [[e []]|]; simpl in *; try lia.
  - split; [|done]. destruct (waiting st); simpl in *; [|lia].
    rewrite <- Hperm. solve_Permutation.
  - split; [|done]. destruct (waiting st); simpl in *; [|lia]. by rewrite <- Hperm.
Qed.

(** With pairwise distinct names, the map is the one the inserts done so far
    build, whatever their order. *)
Lemma props_inv_props_of sch st :
  props_inv sch st →
  NoDup ((fun e : PropEntry => krValue e.1) <$> inserted st) →
  props st = props_of (inserted st).
Proof.
  intros [_ Hlook Hdom _ _ _] Hnd. apply map_eq. intros name. unfold props_of.
  set (kv := fun e : PropEntry => (krValue e.1, Some (prop_proxy e.1 e.2))).
  assert ((kv <$> inserted st).*1 = (fun e : PropEntry => krValue e.1) <$> inserted st)
    as Hfst by (by rewrite <- list_fmap_compose).
  assert (NoDup (kv <$> inserted st).*1) as Hnd' by (by rewrite Hfst).
  destruct (props st !! name) as [q|] eqn:E.
  - symmetry. apply elem_of_list_to_map_1; [exact Hnd'|].
    destruct (Hlook _ _ E) as (e & He & <- & ->).
    by apply (list_elem_of_fmap_2 kv).
  - symmetry. apply not_elem_of_list_to_map_1. intros Hin.
    assert (name ∈ (fun e : PropEntry => krValue e.1) <$> inserted st) as Hin'
      by (rewrite <- Hfst; exact Hin).
    apply list_elem_of_fmap in Hin' as (e & -> & He).
    destruct (Hdom _ He) as [q Hq]. congruence.
Qed.

Lemma props_of_fst (l : list PropEntry) :
  ((fun e : PropEntry => (krValue e.1, Some (prop_proxy e.1 e.2))) <$> l).*1
  = (fun e : PropEntry => krValue e.1) <$> l.
Proof. by rewrite <- list_fmap_compose. Qed.

Lemma props_of_lookup (l : list PropEntry) e :
  NoDup ((fun e : PropEntry => krValue e.1) <$> l) → e ∈ l →
  props_of l !! krValue e.1 = Some (Some (prop_proxy e.1 e.2)).
Proof.
  intros Hnd He. unfold props_of.
  set (kv := fun e : PropEntry => (krValue e.1, Some (prop_proxy e.1 e.2))).
  apply elem_of_list_to_map_1.
  - pose proof (props_of_fst l) as Hfst. fold kv in Hfst.
    assert (NoDup (kv <$> l).*1) as Hnd' by (by rewrite Hfst). exact Hnd'.
  - by apply (list_elem_of_fmap_2 kv).
Qed.

Lemma props_of_lookup_inv (l : list PropEntry) name q :
  props_of l !! name = Some q →
  ∃ e, e ∈ l ∧ krValue e.1 = name ∧ q = Some (prop_proxy e.1 e.2).
Proof.
  unfold props_of. intros H. apply elem_of_list_to_map_2 in H.
  apply list_elem_of_fmap in H as (e & Heq & He). simplify_eq. eauto.
Qed.

Lemma props_of_size (l : list PropEntry) :
  NoDup ((fun e : PropEntry => krValue e.1) <$> l) → size (props_of l) = length l.
Proof.
  intros Hnd. unfold props_of.
  set (kv := fun e : PropEntry => (krValue e.1, Some (prop_proxy e.1 e.2))).
  pose proof (props_of_fst l) as Hfst. fold kv in Hfst.
  assert (NoDup (kv <$> l).*1) as Hnd' by (by rewrite Hfst).
  rewrite <- length_map_to_list, (map_to_list_to_map _ Hnd'). by rewrite length_fmap.
Qed.

(** C4, as stated, fails twice.  The source map of [twice_a] has two
    entries, under two key nodes with the one name "a", and NewSchema returns
    a [Properties] map with a single entry.  The one entry of
    [absent_under_key] has a reference that is absent, under a key that has
    a node, and NewSchema returns a proxy for it that reads present. *)
Lemma properties_lost_or_misflagged :
  (∃ x m, NewSchema twice_a two_props_schedule = Some (x, m)
          ∧ totalProps twice_a = 2
          ∧ map_len m = 1)
  ∧ (∃ x pm p, NewSchema absent_under_key one_prop_schedule = Some (x, Some pm)
               ∧ Value (base.Properties absent_under_key) !! key_a1 = Some absent_ref
               ∧ entry_IsEmpty absent_ref = true
               ∧ pm !! "a" = Some (Some p)
               ∧ IsEmpty (schema p) = false).
Proof.
  split.
  - eexists _, _. split; [vm_compute; reflexivity|].
    split; vm_compute; reflexivity.
  - eexists _, _, _. split; [vm_compute; reflexivity|].
    split_and!; vm_compute; reflexivity.
Qed.

(** C4, amended.  When the key names of the source properties are pairwise
    distinct and NewSchema returns, the [Properties] map has as many entries
    as the source map; every source entry is found under its name, as a
    non-nil proxy that wraps the value and the value node of the entry's
    reference together with the node of its key; and the map holds nothing
    else.  The proxy reads absent exactly when the key has no node and the
    entry's reference is absent: the two presence flags agree for every
    entry that is present and for every key without a node, and an absent
    entry under a key that has a node gives a proxy that reads present. *)
Theorem properties_complete_for_distinct_names sch sched x m :
  distinct_names sch →
  NewSchema sch sched = Some (x, m) →
  map_len m = totalProps sch
  ∧ (∀ k v, Value (base.Properties sch) !! k = Some v →
       ∃ pm, m = Some pm
             ∧ pm !! krValue k = Some (Some (prop_proxy k v))
             ∧ IsEmpty (schema (prop_proxy k v))
               = bool_decide (krKeyNode k = None) && entry_IsEmpty v
             ∧ (entry_IsEmpty v = false → IsEmpty (schema (prop_proxy k v)) = false)
             ∧ (krKeyNode k = None →
                IsEmpty (schema (prop_proxy k v)) = entry_IsEmpty v)
             ∧ (krKeyNode k ≠ None → IsEmpty (schema (prop_proxy k v)) = false))
  ∧ (∀ pm name q, m = Some pm → pm !! name = Some q →
       ∃ k v, Value (base.Properties sch) !! k = Some v
              ∧ krValue k = name ∧ q = Some (prop_proxy k v)).
Proof.
  intros Hdist (st & Hrun & Hret & _ & <-)%NewSchema_Some.
  pose proof (run_props_inv _ _ _ Hrun) as Hinv.
  destruct (joined_all_inserted _ _ Hinv Hret) as [Hperm Hass].
  assert (NoDup ((fun e : PropEntry => krValue e.1) <$> inserted st)) as Hnd.
  { unfold distinct_names in Hdist. by rewrite Hperm. }
  pose proof (props_inv_props_of _ _ Hinv Hnd) as Hprops.
  assert (assigned st ≠ [] → Properties_of st = Some (props_of (inserted st))) as Hsome.
  { intros Hne. unfold Properties_of. rewrite (pi_set _ _ Hinv Hne). by rewrite Hprops. }
  split_and!.
  - rewrite totalProps_length, <- Hperm.
    destruct (decide (inserted st = [])) as [E|E].
    + unfold Properties_of. rewrite (pi_nil _ _ Hinv); by rewrite ?Hass, E.
    + rewrite Hsome by (by rewrite Hass). simpl. by apply props_of_size.
  - intros k v Hkv. apply elem_of_map_to_list in Hkv. rewrite <- Hperm in Hkv.
    exists (props_of (inserted st)). split_and!.
    + apply Hsome. rewrite Hass. intros E. rewrite E in Hkv. by apply elem_of_nil in Hkv.
    + by apply (props_of_lookup _ (k, v)).
    + reflexivity.
    + unfold IsEmpty, entry_IsEmpty. simpl. intros ->. apply andb_false_r.
    + unfold IsEmpty, entry_IsEmpty. simpl. intros ->. by rewrite bool_decide_eq_true_2.
    + unfold IsEmpty. simpl. intros Hk. by rewrite bool_decide_eq_false_2.
  - intros pm name q Hm Hq.
    assert (pm = props_of (inserted st)) as ->.
    { unfold Properties_of in Hm. destruct (Properties (s st)) as [[]|]; [|done].
      rewrite Hprops in Hm. congruence. }
    apply props_of_lookup_inv in Hq as ([k v] & He & Hn & Hp).
    exists k, v. split_and!; try done. apply elem_of_map_to_list. by rewrite <- Hperm.
Qed.

(** NewSchema returns for [props_a_b], whose two names differ, with a map of
    two entries; the entry under "a" is the proxy of the source entry, and
    reads present as the entry does. *)
Lemma properties_complete_for_distinct_names_witness :
  ∃ x m pm, NewSchema props_a_b two_props_schedule = Some (x, m)
            ∧ map_len m = 2
            ∧ m = Some pm
            ∧ pm !! "a" = Some (Some (prop_proxy key_a1 ref_a))
            ∧ IsEmpty (schema (prop_proxy key_a1 ref_a)) = entry_IsEmpty ref_a.
Proof.
  destruct (NewSchema props_a_b two_props_schedule) as [[x m]|] eqn:E;
    [|by vm_compute in E].
  assert (distinct_names props_a_b) as Hd.
  { unfold distinct_names. apply (bool_decide_unpack _). vm_compute. reflexivity. }
  destruct (properties_complete_for_distinct_names _ _ _ _ Hd E) as (Hlen & Hin & _).
  destruct (Hin key_a1 ref_a) as (pm & Hm & Hlook & _ & Hpres & _);
    [vm_compute; reflexivity|].
  exists x, m, pm. split_and!; [done| |done|exact Hlook|].
  - rewrite Hlen. vm_compute. reflexivity.
  - rewrite (Hpres eq_refl). reflexivity.
Defined.

(** ** The select loop *)

Lemma init_await_inv sch : await_inv sch (init sch).
Proof. split; simpl; done. Qed.

Lemma sum_poly_le (f g : poly → nat) : (∀ w, f w ≤ g w) → sum_poly f ≤ sum_poly g.
Proof.
  intros H. unfold sum_poly.
  pose proof (H allOf); pose proof (H oneOf); pose proof (H anyOf);
    pose proof (H not_); pose proof (H items). lia.
Qed.

Lemma done_le_dispatched sch st :
  (∀ w, collector st w ≠ OIdle → IsEmpty (source sch w) = false) →
  done_count st ≤ dispatched sch.
Proof.
  intros H. apply sum_poly_le. intros w. specialize (H w).
  destruct (collector st w); simpl; try (case_match; lia).
  rewrite H by done. lia.
Qed.

Lemma done_count_insert st w x :
  done_count (set_collector w x st) + done_bit (collector st w) = done_count st + done_bit x.
Proof.
  unfold done_count, sum_poly. simpl.
  destruct w; rewrite fn_lookup_insert, !fn_lookup_insert_ne by done; lia.
Qed.

Lemma step_started sch a st st' :
  (∀ w, collector st w ≠ OIdle → IsEmpty (source sch w) = false) →
  step sch a st = Some st' →
  (∀ w, collector st' w ≠ OIdle → IsEmpty (source sch w) = false).
Proof.
  intros Hst H. step_cases H; try done.
  all: intros w'; fn_cases; auto.
  all: tests_to_props; try done.
  all: try (intros _; apply Hst; congruence).
Qed.

Lemma step_await_inv sch a st st' :
  await_inv sch st → step sch a st = Some st' → await_inv sch st'.
Proof.
  intros [Hst Hcount] H. split; [by eapply step_started|].
  pose proof (done_le_dispatched sch st' (step_started _ _ _ _ Hst H)) as Hle.
  step_cases H.
  all: repeat match goal with E : pc _ = _ |- _ => rewrite E in Hcount end.
  all: tests_to_props; try done; try lia.
  all: try match goal with
       | _ : (∀ w, collector ?st0 w ≠ OIdle → _) |- context [set_collector ?w ?x _] =>
           let D := fresh "D" in
           pose proof (done_count_insert st0 w x) as D;
           try match goal with E : collector st0 w = _ |- _ => rewrite E in D end
       | _ : (∀ w, collector ?st0 w ≠ OIdle → _),
         _ : context [set_collector ?w ?x _] |- _ =>
           let D := fresh "D" in
           pose proof (done_count_insert st0 w x) as D;
           try match goal with E : collector st0 w = _ |- _ => rewrite E in D end
       end.
  all: try (destruct (pc st) eqn:?; simplify_eq).
  all: unfold done_count in *; simpl in *; try lia.
Qed.

Lemma run_await_inv sch sched st :
  run sch sched (init sch) = Some st → await_inv sch st.
Proof.
  apply (run_invariant sch (await_inv sch)); [|apply init_await_inv].
  intros a st1 st2. apply step_await_inv.
Qed.

(** Main leaves the select only after as many sends on [polyCompletedChan]
    as there are composition entries; when fewer goroutines were started
    than that, it never leaves. *)
Lemma await_starves sch sched st :
  dispatched sch < totalChildren sch →
  run sch sched (init sch) = Some st →
  ¬ returned st ∧ ∀ rest, pc st ≠ MAssign rest.
Proof.
  intros Hlt Hrun. destruct (run_await_inv _ _ _ Hrun) as [_ Hcount].
  unfold returned. split; [intros E|intros rest E]; rewrite E in Hcount; lia.
Qed.

(** C1, at the failing input [allOf: [a, b]]: two completions are awaited,
    one goroutine is there to signal, so NewSchema returns under no schedule;
    and the schedule [starving_schedule] leads to a state in which main waits
    in the select with one signal counted and no goroutine can move. *)
Theorem two_allOf_never_returns :
  totalChildren two_allOf = 2
  ∧ dispatched two_allOf = 1
  ∧ (∀ sched, NewSchema two_allOf sched = None)
  ∧ (∃ st, run two_allOf starving_schedule (init two_allOf) = Some st
           ∧ pc st = MSelect 1 0
           ∧ stuck two_allOf st).
Proof.
  split_and!; [reflexivity|reflexivity| |].
  - intros sched. apply NewSchema_None. intros st Hrun.
    apply (await_starves two_allOf sched st); [|done]. vm_compute. lia.
  - eexists. split; [vm_compute; reflexivity|]. split; [reflexivity|].
    intros a. destruct a as [|i|w| |i| |w|w i];
      try destruct w; try destruct i; vm_compute; reflexivity.
Qed.

(** C2, at two failing inputs.  For [allOf: [a, b]] with [anyOf: []], under
    [swapped_schedule], NewSchema returns a Schema whose [AllOf] lists the
    proxy of b before the proxy of a, the reverse of the source order.  For
    [allOf: [a]] with [oneOf: []] and [anyOf: []], under [early_schedule],
    NewSchema returns on the signal of the goroutine for [anyOf], with an
    [AllOf] that is nil for a source of one entry. *)
Theorem allOf_in_completion_order :
  (schemas two_allOf_empty_anyOf allOf = [ref_a; ref_b]
   ∧ ∃ x m, NewSchema two_allOf_empty_anyOf swapped_schedule = Some (x, m)
            ∧ AllOf x = Some [Some (child_proxy ref_b); Some (child_proxy ref_a)])
  ∧ (schemas one_allOf_two_empty allOf = [ref_a]
     ∧ ∃ x m, NewSchema one_allOf_two_empty early_schedule = Some (x, m)
              ∧ len (AllOf x) = 0).
Proof.
  split; (split; [reflexivity|]);
    eexists _, _; (split; [vm_compute; reflexivity|reflexivity]).
Qed.

(** ** Main on its own *)

Lemma field_set_field w w' v x :
  field w' (set_field w v x) = if decide (w = w') then v else field w' x.
Proof. destruct w, w'; reflexivity. Qed.

Lemma field_set_Properties w pr x : field w (set_Properties pr x) = field w x.
Proof. destruct w; reflexivity. Qed.

Lemma run_cons sch a sched st :
  run sch (a :: sched) st = step sch a st ≫= run sch sched.
Proof. simpl. by destruct (step sch a st). Qed.

Lemma step_range_end sch st :
  pc st = MRangeProps [] → step sch AMain st = Some (set_pc (MGoPoly go_order) st).
Proof. intros H. unfold step. by rewrite H. Qed.

Lemma step_go sch st w rest :
  pc st = MGoPoly (w :: rest) →
  ∃ st', step sch AMain st = Some st' ∧ pc st' = MGoPoly rest.
Proof. intros H. unfold step. rewrite H. eauto. Qed.

Lemma step_assign sch st w rest :
  pc st = MAssign (w :: rest) →
  ∃ st', step sch AMain st = Some st' ∧ pc st' = MAssign rest.
Proof. intros H. unfold step. rewrite H. eauto. Qed.

Lemma step_return sch st :
  pc st = MAssign [] → step sch AMain st = Some (set_pc MReturned st).
Proof. intros H. unfold step. by rewrite H. Qed.

(** From the closing assignments main runs to the return on its own. *)
Lemma assign_runs sch rest st :
  pc st = MAssign rest →
  ∃ st', run sch (replicate (S (length rest)) AMain) st = Some st' ∧ returned st'.
Proof.
  revert st. induction rest as [|w rest IH]; intros st Hpc.
  - exists (set_pc MReturned st). split; [|done].
    change (replicate (S (length [])) AMain) with [AMain].
    by rewrite run_cons, (step_return _ _ Hpc).
  - destruct (step_assign sch _ _ _ Hpc) as (st1 & Hst & Hpc1).
    destruct (IH _ Hpc1) as (st' & Hrun & Hret). exists st'. split; [|done].
    change (replicate (S (length (w :: rest))) AMain)
      with (AMain :: replicate (S (length rest)) AMain).
    by rewrite run_cons, Hst.
Qed.

(** ** Zero properties, zero composition entries *)

Section nothing_to_dispatch.

Variable sch : base.Schema.
Hypothesis no_props : totalProps sch = 0.
Hypothesis no_children : totalChildren sch = 0.

Lemma no_props_nil : map_to_list (Value (base.Properties sch)) = [].
Proof.
  pose proof no_props as H. unfold totalProps in H.
  apply map_size_empty_inv in H. rewrite H. apply map_to_list_empty.
Qed.

Lemma no_children_nil w : schemas sch w = [].
Proof.
  pose proof no_children as H. unfold totalChildren in H.
  apply length_zero_iff_nil. destruct w; lia.
Qed.

Lemma init_quiet_inv : quiet_inv (init sch).
Proof.
  split; simpl; try done.
  - by rewrite no_props_nil.
  - by intros [].
Qed.

Lemma step_quiet_inv a st st' :
  quiet_inv st → step sch a st = Some st' → quiet_inv st'.
Proof.
  intros [Hpc Hw Hl Hpr Hv Hf Hc Hco] H.
  pose proof no_props as HP. pose proof no_children as HT.
  step_cases H.
  all: repeat match goal with E : pc _ = _ |- _ => rewrite E in Hpc end.
  all: tests_to_props; try done; try lia.
  all: try congruence.
  all: try (exfalso; by eapply Hco).
  all: try match goal with
       | E : ?l !! _ = Some _ |- _ =>
           first [ rewrite Hw in E | rewrite Hc in E
                 | rewrite no_children_nil in E
                 | destruct l; [|done] ];
           by rewrite lookup_nil in E
       end.
  all: split; simpl; try done.
  all: try (intros w0 j0 t0; fn_cases; [done | apply Hco]).
  all: try (intros w0; rewrite field_set_field; case_decide; [apply Hv | apply Hf]).
Qed.

Lemma run_quiet_inv sched st :
  run sch sched (init sch) = Some st → quiet_inv st.
Proof.
  apply (run_invariant sch quiet_inv); [|by apply init_quiet_inv].
  intros a st1 st2. by apply step_quiet_inv.
Qed.

Lemma step_skip_await st :
  pc st = MGoPoly [] →
  step sch AMain st = Some (set_pc (MAssign assign_order) st).
Proof. intros H. unfold step. by rewrite H, no_props, no_children. Qed.

(** From the dispatch tests main runs to the return on its own. *)
Lemma dispatch_runs rest st :
  pc st = MGoPoly rest →
  ∃ st', run sch (replicate (length rest + 7) AMain) st = Some st' ∧ returned st'.
Proof.
  revert st. induction rest as [|w rest IH]; intros st Hpc.
  - destruct (assign_runs sch assign_order (set_pc (MAssign assign_order) st) eq_refl)
      as (st' & Hrun & Hret).
    exists st'. split; [|done].
    change (replicate (length [] + 7) AMain)
      with (AMain :: replicate (S (length assign_order)) AMain).
    by rewrite run_cons, (step_skip_await _ Hpc).
  - destruct (step_go sch _ _ _ Hpc) as (st1 & Hst & Hpc1).
    destruct (IH _ Hpc1) as (st' & Hrun & Hret). exists st'. split; [|done].
    change (replicate (length (w :: rest) + 7) AMain)
      with (AMain :: replicate (length rest + 7) AMain).
    by rewrite run_cons, Hst.
Qed.

Lemma main_only_returns :
  ∃ st, run sch main_only (init sch) = Some st ∧ returned st.
Proof.
  assert (pc (init sch) = MRangeProps []) as Hpc
    by (unfold init; cbn [pc]; by rewrite no_props_nil).
  destruct (dispatch_runs go_order (set_pc (MGoPoly go_order) (init sch)) eq_refl)
    as (st' & Hrun & Hret).
  exists st'. split; [|done].
  change main_only with (AMain :: replicate (length go_order + 7) AMain).
  by rewrite run_cons, (step_range_end _ _ Hpc).
Qed.

(** Main is never blocked: its next statement can always run. *)
Lemma quiet_main_enabled st :
  quiet_inv st → returned st ∨ is_Some (step sch AMain st).
Proof.
  intros [Hpc _ _ _ _ _ _ _]. unfold returned, step.
  destruct (pc st) as [[|e todo]|[|w rest]|cc cp|[|w rest]|]; try done; eauto.
Qed.

(** C3, amended.  When the source has no property and no composition entry,
    NewSchema returns, main needing no other goroutine to get there; main is
    never blocked on the way: in every state of every schedule it has
    returned or its next statement can run; and the Schema returned has the
    five slices nil, of length zero, and a [Properties] without entry. *)
Theorem empty_build_never_waits :
  (∃ x m, NewSchema sch main_only = Some (x, m))
  ∧ (∀ sched st, run sch sched (init sch) = Some st →
       returned st ∨ is_Some (step sch AMain st))
  ∧ (∀ sched x m, NewSchema sch sched = Some (x, m) →
       map_len m = 0 ∧ ∀ w, field w x = None ∧ len (field w x) = 0).
Proof.
  split_and!.
  - destruct main_only_returns as (st & Hrun & Hret).
    exists (s st), (Properties_of st). unfold NewSchema. by rewrite Hrun, Hret.
  - intros sched st Hrun. by eapply quiet_main_enabled, run_quiet_inv.
  - intros sched x m (st & Hrun & _ & <- & <-)%NewSchema_Some.
    pose proof (run_quiet_inv _ _ Hrun) as Hq. split.
    + unfold Properties_of. by rewrite (qi_Properties _ Hq).
    + intros w. by rewrite (qi_field _ Hq).
Qed.

End nothing_to_dispatch.

(** C3, as stated, fails: NewSchema returns for the empty schema, with
    [s.Properties] nil and the five slices nil. *)
Lemma empty_schema_yields_nil_containers :
  ∃ x m, NewSchema empty_schema main_only = Some (x, m)
         ∧ m = None
         ∧ ∀ w, field w x = None.
Proof.
  eexists _, _. split; [vm_compute; reflexivity|].
  split; [reflexivity|]. by intros [].
Qed.

(** NewSchema returns for [empty_anyOf]: a goroutine is started for [anyOf],
    nothing is awaited. *)
Lemma empty_build_never_waits_witness :
  ∃ x m, NewSchema empty_anyOf main_only = Some (x, m) ∧ map_len m = 0.
Proof.
  destruct (NewSchema empty_anyOf main_only) as [[x m]|] eqn:E;
    [|by vm_compute in E].
  exists x, m. split; [done|].
  assert (totalProps empty_anyOf = 0) as HP by (vm_compute; reflexivity).
  assert (totalChildren empty_anyOf = 0) as HT by (vm_compute; reflexivity).
  apply (proj1 (proj2 (proj2 (empty_build_never_waits empty_anyOf HP HT)) _ _ _ E)).
Defined.

(** ** Every step uses up work *)

(** What a lookup that succeeded says about lengths. *)
Ltac length_facts :=
  repeat match goal with
  | H : ?l !! ?i = Some ?x |- _ =>
      lazymatch goal with
      | _ : i < length l |- _ => fail
      | _ =>
          pose proof (lookup_lt_Some l i x H);
          pose proof (length_delete l i (mk_is_Some _ _ H))
      end
  | H : ?l !! ?i = None |- _ =>
      lazymatch goal with
      | _ : length l ≤ i |- _ => fail
      | _ => pose proof (lookup_ge_None_1 l i H)
      end
  end.

Lemma step_measure sch a st st' :
  step sch a st = Some st' → measure sch st' < measure sch st.
Proof.
  intros H. step_cases H.
  all: tests_to_props; length_facts.
  all: unfold measure, sum_poly; simpl.
  all: repeat match goal with E : pc _ = _ |- _ => rewrite E; clear E end.
  all: repeat match goal with E : plock _ = _ |- _ => rewrite E; clear E end.
  all: simpl; rewrite ?length_app; simpl; unfold poly_budget; try lia.
  all: try match goal with w : poly |- _ =>
         destruct w; unfold insert, fn_insert; simpl;
         repeat match goal with E : collector _ _ = _ |- _ => rewrite E; clear E end;
         simpl; rewrite ?length_app; simpl; unfold poly_budget; try lia
       end.
Qed.

Lemma run_measure sch sched st st' :
  run sch sched st = Some st' → length sched + measure sch st' ≤ measure sch st.
Proof.
  revert st. induction sched as [|a sched IH]; intros st Hrun; simpl in Hrun.
  - simplify_eq. simpl. lia.
  - destruct (step sch a st) as [st1|] eqn:E; [|done].
    apply step_measure in E. apply IH in Hrun. simpl. lia.
Qed.

Lemma measure_init sch :
  measure sch (init sch) = 6 * totalProps sch + 4 * totalChildren sch + 24.
Proof.
  unfold measure, sum_poly, totalChildren. simpl. unfold poly_budget.
  rewrite <- totalProps_length. lia.
Qed.

(** ** Every proxy is a fresh wrapper *)

Lemma init_proxy_inv sch : proxy_inv sch (init sch).
Proof.
  split; simpl.
  - intros w c Hc. by apply elem_of_nil in Hc.
  - done.
  - intros w q Hq. by apply elem_of_nil in Hq.
  - intros [] q Hq; by apply elem_of_nil in Hq.
Qed.

Lemma step_proxy_inv sch a st st' :
  proxy_inv sch st → step sch a st = Some st' → proxy_inv sch st'.
Proof.
  intros [Hc Hp Hv Hf] H. step_cases H.
  all: split; simpl; try done.
  all: try (intros w0 q0; rewrite ?field_set_field, ?field_set_Properties;
            try case_decide; subst; eauto; fail).
  all: intros w0 x; fn_cases; eauto.
  all: try (intros y E; discriminate E).
  - intros [Hin| ->%list_elem_of_singleton]%elem_of_app; [by eapply Hc|].
    by eapply list_elem_of_lookup_2.
  - unfold append. simpl.
    intros [Hin| ->%list_elem_of_singleton]%elem_of_app; [by eapply Hv|].
    by eapply Hp.
  - intros Hin%list_elem_of_delete_inv. by eapply Hc.
  - intros y E. simplify_eq. left. eexists _, _. split; [|done].
    eapply Hc. by eapply list_elem_of_lookup_2.
Qed.

Lemma run_proxy_inv sch sched st :
  run sch sched (init sch) = Some st → proxy_inv sch st.
Proof.
  apply (run_invariant sch (proxy_inv sch)); [|apply init_proxy_inv].
  intros a st1 st2. apply step_proxy_inv.
Qed.

Lemma built_here_fresh sch q :
  built_here sch q → ∃ p, q = Some p ∧ rendered p = None.
Proof. intros [(w & c & _ & ->)|(k & v & _ & ->)]; eauto. Qed.

(** C5.  Whatever the source and the schedule, a build takes at most six
    steps for each property, four for each composition entry and twenty-four
    more, so that its work is bounded by the size of the source node alone and
    no schedule goes on forever; and every proxy pointer it holds, in the map,
    in the five variables, in the fields of [s] or in transit, is non-nil and
    points to a wrapper built around one entry of the source, with an empty
    cache: no nested schema has been materialised. *)
Theorem build_is_shallow sch sched st :
  run sch sched (init sch) = Some st →
  length sched ≤ 6 * totalProps sch + 4 * totalChildren sch + 24
  ∧ ∀ q, stored st q →
      built_here sch q ∧ ∃ p, q = Some p ∧ rendered p = None.
Proof.
  intros Hrun. split.
  - pose proof (run_measure _ _ _ _ Hrun) as H. rewrite measure_init in H. lia.
  - destruct (run_proxy_inv _ _ _ Hrun) as [_ Hp Hv Hf].
    pose proof (run_props_inv _ _ _ Hrun) as Hpi.
    assert (∀ q, stored st q → built_here sch q) as Hb.
    { intros q [(name & Hq)|[(w & Hq)|[(w & Hq)|(w & j & Hq)]]]; eauto.
      destruct (pi_lookup _ _ Hpi _ _ Hq) as ([k v] & He & Hn & Hk).
      right. exists k, v. split; [|done]. apply elem_of_map_to_list.
      rewrite <- (pi_perm _ _ Hpi). revert He. unfold inserted, holder.
      rewrite !elem_of_app.
      destruct (plock st) as [[e0 []]|]; rewrite ?elem_of_cons; tauto. }
    intros q Hq. split; [by apply Hb|]. by eapply built_here_fresh, Hb.
Qed.

(** The build of [self_ref], whose one property refers back to the schema
    itself, returns after nineteen steps with the reference still wrapped. *)
Lemma build_is_shallow_witness :
  ∃ st, run self_ref one_prop_schedule (init self_ref) = Some st
        ∧ returned st
        ∧ length one_prop_schedule
          ≤ 6 * totalProps self_ref + 4 * totalChildren self_ref + 24
        ∧ Properties_of st
          = Some {[ "self" := Some {| schema := mkNodeReference (Some 7%N) (Some 72%N)
                                                                (Some 71%N);
                                      rendered := None |} ]}.
Proof.
  eexists. split; [vm_compute; reflexivity|]. split; [reflexivity|].
  split; [|vm_compute; reflexivity].
  let r := eval vm_compute in (run self_ref one_prop_schedule (init self_ref)) in
  lazymatch r with
  | Some ?x =>
      assert (run self_ref one_prop_schedule (init self_ref) = Some x) as E
        by (vm_compute; reflexivity);
      apply (proj1 (build_is_shallow self_ref one_prop_schedule x E))
  end.
Defined.

(** ** When the counts agree, NewSchema returns *)

Lemma init_live_inv sch : live_inv sch (init sch).
Proof. split; simpl; done. Qed.

Lemma step_children_count sch a st st' :
  live_inv sch st → step sch a st = Some st' →
  ∀ w, children_count (length (schemas sch w)) (collector st' w) (children st' w).
Proof.
  intros [Hst Hch _] H. unfold children_count, started in *.
  step_cases H; try done.
  all: repeat match goal with E : pc _ = _ |- _ => rewrite E in Hst end.
  all: tests_to_props; length_facts.
  all: intros w0; fn_cases; try apply Hch.
  all: try match goal with
       | Hs : NoDup (?w :: _) ∧ _ |- _ =>
           destruct Hs as (_ & Hidle & _);
           specialize (Hidle w (list_elem_of_here _ _))
       end.
  all: repeat match goal with
       | E : collector ?st ?w = _ |- _ =>
           let Hw := fresh "Hw" in
           pose proof (Hch w) as Hw; rewrite E in Hw; clear E
       end.
  all: simpl; rewrite ?length_app; simpl; try lia.
  rewrite Hw. simpl. lia.
Qed.

Lemma all_in_go_order w : w ∈ go_order.
Proof. unfold go_order. destruct w; set_solver. Qed.

(** A goroutine that exists goes on existing. *)
Lemma started_update sch p c w x :
  c w ≠ OIdle → x ≠ OIdle → started sch p c → started sch p (<[w := x]> c).
Proof.
  intros Hw Hx. destruct p as [todo|rest|cc cp|rest|]; simpl.
  - intros H. by destruct Hw.
  - intros (Hnd & Hidle & Hs). split_and!; [done| |].
    + intros w0 Hw0. fn_cases; [|by apply Hidle]. destruct Hw. by apply Hidle.
    + intros w0 Hw0 Hpres. fn_cases; [done|]. by apply Hs.
  - intros H w0 Hpres. fn_cases; [done|]. by apply H.
  - intros H w0 Hpres. fn_cases; [done|]. by apply H.
  - intros H w0 Hpres. fn_cases; [done|]. by apply H.
Qed.

Lemma step_started_all sch a st st' :
  live_inv sch st → step sch a st = Some st' → started sch (pc st') (collector st').
Proof.
  intros [Hst _ _] H. step_cases H; try done.
  all: try (apply started_update; [congruence|done|done]).
  all: repeat match goal with E : pc _ = _ |- _ => rewrite E in Hst end.
  all: tests_to_props; simpl in *.
  - split_and!; [by apply (bool_decide_unpack _)|by auto|].
    intros w Hw. destruct Hw. apply all_in_go_order.
  - destruct Hst as (_ & _ & Hs). intros w. apply Hs. by intros ?%elem_of_nil.
  - destruct Hst as (_ & _ & Hs). intros w. apply Hs. by intros ?%elem_of_nil.
  - destruct Hst as (Hnd & Hidle & Hs).
    pose proof (NoDup_cons_1_1 _ _ Hnd) as Hp. apply NoDup_cons_1_2 in Hnd.
    split_and!; [done| |].
    + intros w Hw. rewrite fn_lookup_insert_ne by (by intros ->).
      apply Hidle. by right.
    + intros w Hw Hpres. fn_cases; [done|]. apply Hs; [|done].
      rewrite elem_of_cons. by intros [->|?].
  - destruct Hst as (Hnd & Hidle & Hs).
    pose proof (NoDup_cons_1_1 _ _ Hnd) as Hp. apply NoDup_cons_1_2 in Hnd.
    split_and!; [done| |].
    + intros w Hw. apply Hidle. by right.
    + intros w Hw Hpres. apply Hs; [|done]. rewrite elem_of_cons.
      intros [->|?]; [congruence|done].
  - intros w0 Hpres. fn_cases; [done|]. by apply Hst.
  - intros w0 Hpres. fn_cases; [done|]. by apply Hst.
Qed.

Lemma step_open sch a st st' :
  live_inv sch st → step sch a st = Some st' →
  match pc st' with
  | MSelect cc cp => ¬ (totalProps sch = cp ∧ totalChildren sch = cc)
  | _ => True
  end.
Proof.
  intros [_ _ Hop] H. step_cases H; try done.
  all: repeat match goal with E : pc _ = _ |- _ => rewrite E in Hop end.
  all: tests_to_props; try done; try lia.
  all: match goal with
       | Hb : _ ∨ _ |- _ => destruct Hb as [Hb|Hb]; apply bool_decide_eq_false in Hb; tauto
       end.
Qed.

Lemma step_live_inv sch a st st' :
  live_inv sch st → step sch a st = Some st' → live_inv sch st'.
Proof.
  intros Hinv H. split.
  - by eapply step_started_all.
  - by eapply step_children_count.
  - by eapply step_open.
Qed.

Lemma run_live_inv sch sched st :
  run sch sched (init sch) = Some st → live_inv sch st.
Proof.
  apply (run_invariant sch (live_inv sch)); [|apply init_live_inv].
  intros a st1 st2. apply step_live_inv.
Qed.

(** While fewer signals were received than goroutines were started, one of
    the started goroutines has yet to signal. *)
Lemma outstanding_collector sch st :
  done_count st < dispatched sch →
  ∃ w, IsEmpty (source sch w) = false ∧ collector st w ≠ ODone.
Proof.
  unfold done_count, dispatched, sum_poly. intros H.
  assert (∃ w, done_bit (collector st w) < (if IsEmpty (source sch w) then 0 else 1))
    as [w Hw].
  { destruct (decide (done_bit (collector st allOf)
                      < (if IsEmpty (source sch allOf) then 0 else 1))); [by eauto|].
    destruct (decide (done_bit (collector st oneOf)
                      < (if IsEmpty (source sch oneOf) then 0 else 1))); [by eauto|].
    destruct (decide (done_bit (collector st anyOf)
                      < (if IsEmpty (source sch anyOf) then 0 else 1))); [by eauto|].
    destruct (decide (done_bit (collector st not_)
                      < (if IsEmpty (source sch not_) then 0 else 1))); [by eauto|].
    destruct (decide (done_bit (collector st items)
                      < (if IsEmpty (source sch items) then 0 else 1))); [by eauto|].
    lia. }
  exists w. destruct (IsEmpty (source sch w)); [lia|]. split; [done|].
  intros E. rewrite E in Hw. simpl in Hw. lia.
Qed.

Section counts_agree.

Variable sch : base.Schema.
Hypothesis counts_agree : totalChildren sch = dispatched sch.

(** When as many completions are awaited as goroutines are started, a state
    in which NewSchema has not returned has a goroutine that can move. *)
Lemma progress st :
  props_inv sch st → await_inv sch st → live_inv sch st →
  returned st ∨ can_step sch st.
Proof.
  intros Hp Ha Hl. unfold returned, can_step.
  destruct (pc st) as [[|e todo]|rest|cc cp|rest|] eqn:Hpc; [| | | | |by left]; right.
  - exists AMain. unfold step. rewrite Hpc. eauto.
  - exists (AGoProps 0). unfold step. rewrite Hpc. simpl. eauto.
  - exists AMain. unfold step. rewrite Hpc. destruct rest; eauto.
  - destruct (plock st) as [[e h]|] eqn:Hlock.
    { destruct h.
      - exists AHolder. unfold step. rewrite Hlock. eauto.
      - exists AHolder. unfold step. rewrite Hlock. eauto.
      - exists ARecvProps. unfold step. rewrite Hpc, Hlock. eauto.
      - exists AHolder. unfold step. rewrite Hlock. eauto. }
    destruct (waiting st) as [|e waiting'] eqn:Hwait.
    2: { exists (ALock 0). unfold step. rewrite Hlock, Hwait. simpl. eauto. }
    assert (cp = totalProps sch) as ->.
    { pose proof (pi_count _ _ Hp) as Hc. pose proof (pi_perm _ _ Hp) as Hperm.
      unfold signalled, holder in *. rewrite Hpc, Hlock, Hwait in *. simpl in *.
      rewrite totalProps_length, <- Hperm. done. }
    assert (done_count st < dispatched sch) as Hlt.
    { pose proof (ai_count _ _ Ha) as Hc. rewrite Hpc in Hc. subst cc.
      pose proof (li_open _ _ Hl) as Ho. rewrite Hpc in Ho.
      pose proof (done_le_dispatched sch st (ai_started _ _ Ha)).
      pose proof counts_agree. lia. }
    destruct (outstanding_collector _ _ Hlt) as (w & Hpres & Hnd).
    pose proof (li_started _ _ Hl) as Hs. rewrite Hpc in Hs. specialize (Hs w Hpres).
    pose proof (li_children _ _ Hl w) as Hc.
    destruct (collector st w) as [|v|j|j t|] eqn:Hcol; try done.
    + exists (ACollector w). unfold step. rewrite Hcol.
      destruct (schemas sch w !! v); eauto.
    + destruct (decide (j < length (schemas sch w))) as [Hj|Hj].
      * simpl in Hc. destruct (children st w) as [|c pending] eqn:Hch; [simpl in Hc; lia|].
        exists (AChildSend w 0). unfold step. rewrite Hcol, Hch. simpl.
        rewrite bool_decide_eq_true_2 by done. eauto.
      * exists (ARecvPoly w). unfold step. rewrite Hpc, Hcol.
        rewrite bool_decide_eq_false_2 by done. eauto.
    + exists (ACollector w). unfold step. rewrite Hcol. eauto.
  - exists AMain. unfold step. rewrite Hpc. destruct rest; eauto.
Qed.

Lemma completes n st :
  props_inv sch st → await_inv sch st → live_inv sch st →
  measure sch st ≤ n →
  ∃ sched st', run sch sched st = Some st' ∧ returned st'.
Proof.
  revert st. induction n as [|n IH]; intros st Hp Ha Hl Hn.
  - destruct (progress _ Hp Ha Hl) as [Hret|(a & st1 & Hst)].
    + by exists [], st.
    + apply step_measure in Hst. lia.
  - destruct (progress _ Hp Ha Hl) as [Hret|(a & st1 & Hst)].
    + by exists [], st.
    + destruct (IH st1) as (sched & st' & Hrun & Hret).
      * by eapply step_props_inv.
      * by eapply step_await_inv.
      * by eapply step_live_inv.
      * apply step_measure in Hst. lia.
      * exists (a :: sched), st'. split; [|done]. simpl. by rewrite Hst.
Qed.

(** When the number of composition entries equals the number of arrays whose
    reference is not empty (a source with properties only, or with one entry
    in each array it has), NewSchema returns under every schedule: a state in
    which it has not returned is never stuck, every execution can be carried
    on to the return, and by [run_measure] none goes on forever. *)
Lemma returns_when_counts_agree sched st :
  run sch sched (init sch) = Some st →
  (returned st ∨ can_step sch st)
  ∧ ∃ sched' st', run sch sched' st = Some st' ∧ returned st'.
Proof.
  intros Hrun.
  pose proof (run_props_inv _ _ _ Hrun) as Hp.
  pose proof (run_await_inv _ _ _ Hrun) as Ha.
  pose proof (run_live_inv _ _ _ Hrun) as Hl.
  split; [by apply progress|]. by apply (completes (measure sch st)).
Qed.

End counts_agree.

(** ** No failure path *)

Lemma Schema_eta (x : Schema) :
  x = with_structure x (Properties x) (fun w => field w x).
Proof. by destruct x. Qed.

(** The one place where main can be kept waiting is the select. *)
Lemma main_moves_or_selects sch st :
  returned st
  ∨ (∃ cc cp, pc st = MSelect cc cp)
  ∨ is_Some (step sch AMain st)
  ∨ is_Some (step sch (AGoProps 0) st).
Proof.
  unfold returned, step.
  destruct (pc st) as [[|e todo]|[|w rest]|cc cp|[|w rest]|]; simpl; eauto 10.
Qed.

(** C10, at the failing input [allOf: [a, b]].  Two parts of the claim
    hold: no statement of the build communicates on [errChan], and for a
    source with nothing present NewSchema returns the Schema whose fields are
    all at their defaults.  But a consumer does observe failed builds, and
    something worse than that Schema: for [two_allOf], a source that is not
    empty, NewSchema returns no Schema at all, under any schedule; no
    execution has more than thirty-two steps; in every state in which no
    goroutine can move main is blocked in the select, with fewer completions
    counted than it awaits; and [starving_schedule] leads to such a state:
    the call never returns, and nothing reports it. *)
Theorem failure_is_a_silent_hang :
  (∀ a, channel_of a ≠ Some errChan)
  ∧ (∃ x m, NewSchema empty_schema main_only = Some (x, m))
  ∧ (∀ sched x m, NewSchema empty_schema sched = Some (x, m) →
       x = defaults_for empty_schema ∧ m = None)
  ∧ schemas two_allOf allOf = [ref_a; ref_b]
  ∧ (∀ sched, NewSchema two_allOf sched = None)
  ∧ (∀ sched st, run two_allOf sched (init two_allOf) = Some st →
       length sched ≤ 32
       ∧ (stuck two_allOf st →
          ∃ cc cp, pc st = MSelect cc cp ∧ cc < totalChildren two_allOf))
  ∧ (∃ st, run two_allOf starving_schedule (init two_allOf) = Some st
           ∧ stuck two_allOf st).
Proof.
  assert (dispatched two_allOf < totalChildren two_allOf) as Hlt by (vm_compute; lia).
  split_and!.
  - by intros [].
  - eexists _, _. vm_compute. reflexivity.
  - intros sched x m (st & Hrun & _ & <- & <-)%NewSchema_Some.
    assert (totalProps empty_schema = 0) as HP by (vm_compute; reflexivity).
    assert (totalChildren empty_schema = 0) as HT by (vm_compute; reflexivity).
    destruct (run_quiet_inv _ HP HT _ _ Hrun) as [_ _ _ Hpr _ Hf _ _].
    apply run_same_scalars in Hrun. unfold same_scalars in Hrun.
    split; [|unfold Properties_of; by rewrite Hpr].
    rewrite (Schema_eta (s st)), Hpr. unfold with_structure at 1.
    rewrite !Hf. exact Hrun.
  - reflexivity.
  - intros sched. apply NewSchema_None. intros st Hrun.
    by apply (await_starves two_allOf sched st).
  - intros sched st Hrun. split.
    + pose proof (run_measure _ _ _ _ Hrun) as H. rewrite measure_init in H.
      assert (6 * totalProps two_allOf + 4 * totalChildren two_allOf + 24 = 32) as E
        by (vm_compute; reflexivity).
      lia.
    + intros Hstuck.
      destruct (await_starves _ _ _ Hlt Hrun) as [Hnret _].
      destruct (run_await_inv _ _ _ Hrun) as [Hst Hcount].
      pose proof (done_le_dispatched two_allOf st Hst) as Hle.
      destruct (main_moves_or_selects two_allOf st)
        as [Hret|[(cc & cp & Hpc)|[[st' Hs]|[st' Hs]]]].
      * done.
      * exists cc, cp. split; [done|]. rewrite Hpc in Hcount. lia.
      * by rewrite Hstuck in Hs.
      * by rewrite Hstuck in Hs.
  - eexists. split; [vm_compute; reflexivity|].
    intros a. destruct a as [|i|w| |i| |w|w i];
      try destruct w; try destruct i; vm_compute; reflexivity.
Qed.

(** ** GoLow *)

(** X1.  Whatever the schedule, GoLow of the Schema NewSchema returns is the
    low-level schema NewSchema was given: the back-reference set at line 60
    is what line 241 hands out, and no goroutine touches it. *)
Theorem GoLow_returns_the_source sch sched x m :
  NewSchema sch sched = Some (x, m) → GoLow x = Some sch.
Proof.
  intros (st & Hrun & _ & <- & _)%NewSchema_Some. apply run_same_scalars in Hrun.
  exact (f_equal low Hrun).
Qed.

(** NewSchema returns for [documented], and GoLow gives [documented] back. *)
Lemma GoLow_returns_the_source_witness :
  ∃ x m, NewSchema documented main_only = Some (x, m) ∧ GoLow x = Some documented.
Proof.
  destruct (NewSchema documented main_only) as [[x m]|] eqn:E;
    [|by vm_compute in E].
  exists x, m. split; [done|]. exact (GoLow_returns_the_source _ _ _ _ E).
Defined.

(** ** The copies made before the goroutines start *)

(** X2.  Whatever the schedule, the numeric and string constraints (lines
    61-64 and 81-88) and the annotations (lines 100-108) of the Schema
    NewSchema returns are the [Value] of the source reference, read without
    any test of its presence: an absent reference gives whatever value it
    carries.  The extension map is the one [ExtractExtensions] makes. *)
Theorem values_copied_whatever_the_presence sch sched x m :
  NewSchema sch sched = Some (x, m) →
  (Title x = Value (base.Title sch)
   ∧ MultipleOf x = Value (base.MultipleOf sch)
   ∧ Maximum x = Value (base.Maximum sch)
   ∧ Minimum x = Value (base.Minimum sch)
   ∧ MaxLength x = Value (base.MaxLength sch)
   ∧ MinLength x = Value (base.MinLength sch)
   ∧ Pattern x = Value (base.Pattern sch)
   ∧ Format x = Value (base.Format sch)
   ∧ MaxItems x = Value (base.MaxItems sch)
   ∧ MinItems x = Value (base.MinItems sch)
   ∧ MaxProperties x = Value (base.MaxProperties sch)
   ∧ MinProperties x = Value (base.MinProperties sch))
  ∧ (AdditionalProperties x = Value (base.AdditionalProperties sch)
     ∧ Description x = Value (base.Description sch)
     ∧ Default x = Value (base.Default sch)
     ∧ Nullable x = Value (base.Nullable sch)
     ∧ ReadOnly x = Value (base.ReadOnly sch)
     ∧ WriteOnly x = Value (base.WriteOnly sch)
     ∧ Example x = Value (base.Example sch)
     ∧ Deprecated x = Value (base.Deprecated sch)
     ∧ Extensions x = Some (ExtractExtensions (base.Extensions sch))).
Proof.
  intros (st & Hrun & _ & <- & _)%NewSchema_Some.
  split; [by eapply scalars_copied|]. apply run_same_scalars in Hrun.
  split_and!;
    [ apply (f_equal AdditionalProperties) in Hrun | apply (f_equal Description) in Hrun
    | apply (f_equal Default) in Hrun | apply (f_equal Nullable) in Hrun
    | apply (f_equal ReadOnly) in Hrun | apply (f_equal WriteOnly) in Hrun
    | apply (f_equal Example) in Hrun | apply (f_equal Deprecated) in Hrun
    | apply (f_equal Extensions) in Hrun ];
    exact Hrun.
Qed.

(** NewSchema returns for [documented], with its title, minimum, description
    and flags. *)
Lemma values_copied_whatever_the_presence_witness :
  ∃ x m, NewSchema documented main_only = Some (x, m)
         ∧ Title x = "Pet" ∧ Minimum x = 1%Z ∧ Description x = "A pet"
         ∧ Nullable x = true ∧ Deprecated x = true.
Proof.
  destruct (NewSchema documented main_only) as [[x m]|] eqn:E;
    [|by vm_compute in E].
  exists x, m. split; [done|].
  destruct (values_copied_whatever_the_presence _ _ _ _ E)
    as [(Ht & _ & _ & Hmin & _) (_ & Hd & _ & Hn & _ & _ & _ & Hdep & _)].
  by rewrite Ht, Hmin, Hd, Hn, Hdep.
Defined.

(** X3.  Whatever the schedule, each of [Discriminator], [XML] and
    [ExternalDocs] of the Schema NewSchema returns is nil when the source
    reference is empty, and otherwise the object its constructor makes from
    the source value (lines 109-117). *)
Theorem peripheral_objects_follow_presence sch sched x m :
  NewSchema sch sched = Some (x, m) →
  Discriminator_ x
  = (if IsEmpty (base.Discriminator_ sch) then None
     else Some (NewDiscriminator (Value (base.Discriminator_ sch))))
  ∧ XML_ x
    = (if IsEmpty (base.XML_ sch) then None
       else Some (NewXML (Value (base.XML_ sch))))
  ∧ ExternalDocs x
    = (if IsEmpty (base.ExternalDocs sch) then None
       else Some (NewExternalDoc (Value (base.ExternalDocs sch)))).
Proof.
  intros (st & Hrun & _ & <- & _)%NewSchema_Some. apply run_same_scalars in Hrun.
  pose proof (f_equal Discriminator_ Hrun) as E1.
  pose proof (f_equal XML_ Hrun) as E2.
  pose proof (f_equal ExternalDocs Hrun) as E3.
  simpl in E1, E2, E3. rewrite E1, E2, E3.
  split_and!;
    match goal with |- context [IsEmpty ?n] => by destruct (IsEmpty n) end.
Qed.

(** NewSchema returns for [documented], with a discriminator and external
    documentation, and no XML object. *)
Lemma peripheral_objects_follow_presence_witness :
  ∃ x m, NewSchema documented main_only = Some (x, m)
         ∧ Discriminator_ x = Some (NewDiscriminator (Some 5%N))
         ∧ XML_ x = None
         ∧ ExternalDocs x = Some (NewExternalDoc (Some 6%N)).
Proof.
  destruct (NewSchema documented main_only) as [[x m]|] eqn:E;
    [|by vm_compute in E].
  exists x, m. split; [done|].
  destruct (peripheral_objects_follow_presence _ _ _ _ E) as (Hd & Hx & He).
  by rewrite Hd, Hx, He.
Defined.

Lemma append_values_nil acc refs :
  append_values acc refs = None ↔ acc = None ∧ refs = [].
Proof.
  unfold append_values. revert acc. induction refs as [|r refs IH]; intros acc; simpl.
  - split; [done|tauto].
  - rewrite IH. unfold append. split; [by intros [? ?]|by intros [_ ?]].
Qed.

(** X4.  Whatever the schedule, [Required] and [Enum] of the Schema NewSchema
    returns hold the strings of the source lists, in the source's order
    (lines 118-128); each is nil, not an empty slice, exactly when the source
    list has no element. *)
Theorem required_and_enum_in_source_order sch sched x m :
  NewSchema sch sched = Some (x, m) →
  elems (Required x) = map vrValue (Value (base.Required sch))
  ∧ elems (Enum x) = map vrValue (Value (base.Enum sch))
  ∧ (Required x = None ↔ Value (base.Required sch) = [])
  ∧ (Enum x = None ↔ Value (base.Enum sch) = []).
Proof.
  intros (st & Hrun & _ & <- & _)%NewSchema_Some. apply run_same_scalars in Hrun.
  pose proof (f_equal Required Hrun) as E1. pose proof (f_equal Enum Hrun) as E2.
  simpl in E1, E2. rewrite E1, E2, !elems_append_values, !append_values_nil.
  tauto.
Qed.

(** NewSchema returns for [documented], with the two required names and the
    two enum values in source order. *)
Lemma required_and_enum_in_source_order_witness :
  ∃ x m, NewSchema documented main_only = Some (x, m)
         ∧ elems (Required x) = ["id"; "name"]
         ∧ elems (Enum x) = ["cat"; "dog"].
Proof.
  destruct (NewSchema documented main_only) as [[x m]|] eqn:E;
    [|by vm_compute in E].
  exists x, m. split; [done|].
  destruct (required_and_enum_in_source_order _ _ _ _ E) as (Hr & He & _).
  by rewrite Hr, He.
Defined.

(** X5.  No statement of NewSchema assigns [SchemaTypeRef] or [Examples]:
    whatever the source and the schedule, the Schema returned has the empty
    string and the nil slice there. *)
Theorem typeRef_and_examples_never_set sch sched x m :
  NewSchema sch sched = Some (x, m) → SchemaTypeRef x = "" ∧ Examples x = None.
Proof.
  intros (st & Hrun & _ & <- & _)%NewSchema_Some. apply run_same_scalars in Hrun.
  split; [exact (f_equal SchemaTypeRef Hrun)|exact (f_equal Examples Hrun)].
Qed.

(** NewSchema returns for [documented], without a type reference. *)
Lemma typeRef_and_examples_never_set_witness :
  ∃ x m, NewSchema documented main_only = Some (x, m) ∧ SchemaTypeRef x = "".
Proof.
  destruct (NewSchema documented main_only) as [[x m]|] eqn:E;
    [|by vm_compute in E].
  exists x, m. split; [done|].
  exact (proj1 (typeRef_and_examples_never_set _ _ _ _ E)).
Defined.

(** X6.  The two tests of each union field are independent statements
    (lines 66-72, 74-80, 91-99), not alternatives: when a present union
    carries both forms, the Schema NewSchema returns keeps both, the boolean
    and the number of an exclusivity field, and for [type] the single string
    followed by the strings of the list. *)
Theorem both_forms_both_kept sch sched x m :
  NewSchema sch sched = Some (x, m) →
  (uses_both (base.ExclusiveMaximum sch) →
     ExclusiveMaximumBool x = base.A (Value (base.ExclusiveMaximum sch))
     ∧ ExclusiveMaximum x = base.B (Value (base.ExclusiveMaximum sch)))
  ∧ (uses_both (base.ExclusiveMinimum sch) →
     ExclusiveMinimumBool x = base.A (Value (base.ExclusiveMinimum sch))
     ∧ ExclusiveMinimum x = base.B (Value (base.ExclusiveMinimum sch)))
  ∧ (uses_both (base.Type_ sch) →
     elems (Type_ x)
     = base.A (Value (base.Type_ sch)) :: map vrValue (base.B (Value (base.Type_ sch)))).
Proof.
  intros (st & Hrun & _ & <- & _)%NewSchema_Some. apply run_same_scalars in Hrun.
  pose proof (f_equal ExclusiveMaximumBool Hrun) as E1.
  pose proof (f_equal ExclusiveMaximum Hrun) as E2.
  pose proof (f_equal ExclusiveMinimumBool Hrun) as E3.
  pose proof (f_equal ExclusiveMinimum Hrun) as E4.
  pose proof (f_equal Type_ Hrun) as E5.
  simpl in E1, E2, E3, E4, E5. rewrite E1, E2, E3, E4, E5.
  unfold exclusive_bool, exclusive_num, normalise_type.
  split_and!; intros (He & Ha & Hb); rewrite He, Ha, Hb; simpl; [done|done|].
  by rewrite elems_append_values.
Qed.

(** NewSchema returns for [both_forms], with both exclusivity fields set and
    a [Type] of two strings. *)
Lemma both_forms_both_kept_witness :
  ∃ x m, NewSchema both_forms main_only = Some (x, m)
         ∧ (ExclusiveMaximumBool x = true ∧ ExclusiveMaximum x = 3%Z)
         ∧ elems (Type_ x) = ["string"; "null"].
Proof.
  destruct (NewSchema both_forms main_only) as [[x m]|] eqn:E;
    [|by vm_compute in E].
  exists x, m. split; [done|].
  destruct (both_forms_both_kept _ _ _ _ E) as (Hmax & _ & Hty).
  split; [apply Hmax|apply Hty]; repeat split.
Defined.

(** ** More entries than arrays *)

(** X7.  Main awaits one completion for each composition entry (line 213),
    and each array whose reference is not empty sends one (line 164).  When
    the entries outnumber those arrays, NewSchema returns under no
    schedule. *)
Theorem never_returns_when_entries_outnumber_arrays sch sched :
  dispatched sch < totalChildren sch → NewSchema sch sched = None.
Proof.
  intros Hlt. apply NewSchema_None. intros st Hrun.
  by apply (await_starves sch sched st).
Qed.

(** [two_allOf] has two entries in one array. *)
Lemma never_returns_when_entries_outnumber_arrays_witness :
  dispatched two_allOf < totalChildren two_allOf
  ∧ NewSchema two_allOf starving_schedule = None.
Proof.
  assert (dispatched two_allOf < totalChildren two_allOf) as H by (vm_compute; lia).
  split; [exact H|]. exact (never_returns_when_entries_outnumber_arrays _ _ H).
Defined.

(** ** As many entries as arrays *)

Lemma run_app sch sched sched' st :
  run sch (sched ++ sched') st = run sch sched st ≫= run sch sched'.
Proof.
  revert st. induction sched as [|a sched IH]; intros st; simpl; [done|].
  destruct (step sch a st); simpl; [apply IH|done].
Qed.

Lemma run_app_Some sch sched sched' st' :
  run sch (sched ++ sched') (init sch) = Some st' →
  ∃ st, run sch sched (init sch) = Some st ∧ run sch sched' st = Some st'.
Proof.
  rewrite run_app. destruct (run sch sched (init sch)) as [st|]; [|done]. eauto.
Qed.

(** X8.  When the number of composition entries equals the number of arrays
    whose reference is not empty (a source with properties only, or with one
    entry in each array it has), no state of any execution is a deadlock:
    NewSchema has returned or some goroutine can move; and every execution
    can be carried on to the return. *)
Theorem returns_under_every_schedule sch sched st :
  totalChildren sch = dispatched sch →
  run sch sched (init sch) = Some st →
  (returned st ∨ can_step sch st)
  ∧ ∃ sched', is_Some (NewSchema sch (sched ++ sched')).
Proof.
  intros Heq Hrun.
  destruct (returns_when_counts_agree sch Heq sched st Hrun)
    as [Hprog (sched' & st' & Hrun' & Hret)].
  split; [done|]. exists sched'. unfold NewSchema.
  rewrite run_app, Hrun. simpl. rewrite Hrun'. unfold returned in Hret.
  rewrite Hret. eauto.
Qed.

(** After main has started the two buildProps goroutines of [props_a_b],
    the build can be carried on to the return. *)
Lemma returns_under_every_schedule_witness :
  ∃ sched', is_Some (NewSchema props_a_b ([AGoProps 0; AGoProps 0] ++ sched')).
Proof.
  assert (totalChildren props_a_b = dispatched props_a_b) as Heq
    by (vm_compute; reflexivity).
  destruct (run props_a_b [AGoProps 0; AGoProps 0] (init props_a_b)) as [st|] eqn:E;
    [|by vm_compute in E].
  exact (proj2 (returns_under_every_schedule _ _ _ Heq E)).
Defined.

(** ** What the buildOutSchema goroutines collect *)

Lemma init_collect_inv sch : collect_inv sch (init sch).
Proof. split; simpl; done. Qed.

Lemma proxies_app l1 l2 : proxies (l1 ++ l2) = proxies l1 ++ proxies l2.
Proof. apply fmap_app. Qed.

Lemma step_collect_inv sch a st st' :
  live_inv sch st → collect_inv sch st → step sch a st = Some st' → collect_inv sch st'.
Proof.
  intros [Hst Hch _] [Hacc Hidle Hdone Hne] H. unfold started, children_count in *.
  step_cases H; try (split; done).
  all: repeat match goal with E : pc _ = _ |- _ => rewrite E in Hst end.
  all: tests_to_props.
  all: split; simpl; intros w0; fn_cases; auto.
  all: try match goal with
       | Hs : NoDup (?w :: _) ∧ _ |- _ =>
           destruct Hs as (_ & Hi & _);
           specialize (Hi w (list_elem_of_here _ _))
       end.
  all: try done.
  all: repeat match goal with
       | E : collector ?st ?w = _ |- _ =>
           pose proof (Hacc w) as Hw; pose proof (Hch w) as Hc;
           rewrite E in Hw, Hc; clear E
       end.
  all: simpl in *.
  all: try exact Hw.
  all: try (intros _; apply nil_length_inv; lia).
  - rewrite (take_S_r _ _ _ Heqo), !proxies_app, app_assoc, Hw. done.
  - rewrite take_ge in Hw by (by apply lookup_ge_None_1). exact Hw.
  - rewrite <- Hw. solve_Permutation.
  - unfold append. intros [=E]. by apply app_nil in E as [_ ?].
  - rewrite <- Hw. unfold proxies.
    rewrite (fmap_Permutation _ _ _ (delete_Permutation _ _ _ Heqo)). simpl.
    solve_Permutation.
Qed.

Lemma init_result_inv sch : result_inv sch (init sch).
Proof.
  split; simpl; try done.
  intros []; simpl; (split; [apply submseteq_nil_l|done]).
Qed.

Lemma spawned_sub l c : proxies (spawned l c) ⊆+ proxies l.
Proof.
  unfold proxies. apply fmap_submseteq, sublist_submseteq.
  destruct c; simpl; try done; [apply sublist_nil_l|apply sublist_take].
Qed.

(** A variable never holds more than the proxies of its array. *)
Lemma vars_sub sch st w :
  collect_inv sch st → elems (vars st w) ⊆+ proxies (schemas sch w).
Proof.
  intros [Hacc _ _ _]. etrans; [|apply spawned_sub].
  rewrite <- (Hacc w). by apply submseteq_inserts_r.
Qed.

Lemma all_in_assign_order w : w ∈ assign_order.
Proof. unfold assign_order. destruct w; rewrite !elem_of_cons; tauto. Qed.

Lemma step_result_inv sch a st st' :
  await_inv sch st → collect_inv sch st → result_inv sch st →
  step sch a st = Some st' → result_inv sch st'.
Proof.
  intros [_ Hcount] Hci [Hf Hj Hfin] H.
  pose proof (vars_sub sch st) as Hv. pose proof (ci_nonempty _ _ Hci) as Hne.
  unfold settled in *.
  step_cases H.
  all: repeat match goal with E : pc _ = _ |- _ => rewrite E in Hcount, Hj, Hfin end.
  all: tests_to_props.
  all: split; simpl; try done.
  all: try (intros w0 _ Hw0; destruct Hw0; apply all_in_assign_order).
  all: try (intros w0 Hs; apply (Hfin w0 Hs); by intros ?%elem_of_nil).
  all: try match goal with
       | Ec : collector ?st0 ?w = _ |- context [set_collector ?w ?x _] =>
           let D := fresh "D" in
           pose proof (done_count_insert st0 w x) as D; rewrite Ec in D
       end.
  all: try (destruct (pc st) eqn:?; simplify_eq).
  all: try (unfold done_count in *; simpl in *; lia).
  all: try done.
  all: try (intros w0; fn_cases;
            [by intros [?|?]
            |intros Hs; try rewrite fn_lookup_insert_ne by done; by apply Hfin]).
  - intros w. rewrite field_set_field. case_decide; subst; [|apply Hf].
    split; [by apply Hv|apply Hne].
  - intros w Hs Hw. rewrite field_set_field. case_decide; subst; [done|].
    apply Hfin; [done|]. rewrite elem_of_cons. by intros [->|?].
Qed.

Lemma run_build_inv sch sched st :
  run sch sched (init sch) = Some st → build_inv sch st.
Proof.
  apply (run_invariant sch (build_inv sch)).
  - intros a st1 st2 [Hp Ha Hl Hc Hr] Hst. split.
    + by eapply step_props_inv.
    + by eapply step_await_inv.
    + by eapply step_live_inv.
    + by eapply step_collect_inv.
    + by eapply step_result_inv.
  - split; [apply init_props_inv|apply init_await_inv|apply init_live_inv
           |apply init_collect_inv|apply init_result_inv].
Qed.

(** Once main has counted as many signals as goroutines were started, every
    goroutine that was started has signalled. *)
Lemma all_signalled sch st w :
  await_inv sch st → done_count st = dispatched sch →
  collector st w = if IsEmpty (source sch w) then OIdle else ODone.
Proof.
  intros [Hst _] Heq.
  assert (∀ w', done_bit (collector st w') ≤ (if IsEmpty (source sch w') then 0 else 1))
    as Hle.
  { intros w'. specialize (Hst w'). destruct (collector st w'); simpl; try (case_match; lia).
    rewrite Hst by done. lia. }
  unfold done_count, dispatched, sum_poly in Heq.
  pose proof (Hle allOf); pose proof (Hle oneOf); pose proof (Hle anyOf);
    pose proof (Hle not_); pose proof (Hle items).
  assert (done_bit (collector st w) = if IsEmpty (source sch w) then 0 else 1) as Hw
    by (destruct w; lia).
  specialize (Hst w). destruct (IsEmpty (source sch w)).
  - destruct (collector st w); try done; exfalso;
      by (assert (true = false) by by apply Hst).
  - destruct (collector st w); simpl in Hw; try done; lia.
Qed.

(** When the counts agree, what NewSchema returns in a field is the final
    value of the variable: all of the array, or nil. *)
Lemma fields_at_return sch sched st w :
  totalChildren sch = dispatched sch →
  run sch sched (init sch) = Some st → returned st →
  (IsEmpty (source sch w) = false → elems (field w (s st)) ≡ₚ proxies (schemas sch w))
  ∧ (field w (s st) = None ↔ IsEmpty (source sch w) = true ∨ schemas sch w = []).
Proof.
  intros Heq Hrun Hret. unfold returned in Hret.
  destruct (run_build_inv _ _ _ Hrun) as [_ Ha _ [Hacc Hidle Hdone Hne] Hr].
  pose proof (ri_joined _ _ Hr) as Hj. rewrite Hret in Hj.
  assert (collector st w = if IsEmpty (source sch w) then OIdle else ODone) as Hc
    by (apply all_signalled; [done|congruence]).
  assert (field w (s st) = vars st w) as Hf.
  { pose proof (ri_final _ _ Hr w) as Hf. rewrite Hret in Hf.
    apply Hf. unfold settled. rewrite Hc. case_match; eauto. }
  rewrite Hf. destruct (IsEmpty (source sch w)) eqn:He.
  - split; [done|]. rewrite (Hidle w Hc). split; [by left|done].
  - specialize (Hacc w). rewrite Hc, (Hdone w Hc) in Hacc.
    simpl in Hacc. rewrite app_nil_r in Hacc. split; [done|].
    split.
    + intros Hn. right. rewrite Hn in Hacc. simpl in Hacc.
      symmetry in Hacc. apply Permutation_nil_r in Hacc.
      by apply fmap_nil_inv in Hacc.
    + intros [?|Hnil]; [done|]. rewrite Hnil in Hacc. simpl in Hacc.
      apply Permutation_nil_r in Hacc. specialize (Hne w).
      destruct (vars st w) as [[|]|]; simplify_eq/=; done.
Qed.

(** A variable whose array has no entry stays nil, and so does its field. *)
Lemma nothing_to_append sch st w :
  collect_inv sch st → result_inv sch st → schemas sch w = [] →
  vars st w = None ∧ field w (s st) = None.
Proof.
  intros Hc Hr Hnil. pose proof (vars_sub sch st w Hc) as Hv.
  destruct (ri_field _ _ Hr w) as [Hf Hfn]. pose proof (ci_nonempty _ _ Hc w) as Hvn.
  rewrite Hnil in Hv, Hf. simpl in Hv, Hf.
  apply submseteq_nil_r in Hv. apply submseteq_nil_r in Hf.
  split.
  - destruct (vars st w) as [[|]|]; simplify_eq/=; done.
  - destruct (field w (s st)) as [[|]|]; simplify_eq/=; done.
Qed.

(** X9.  Whatever the counts, when NewSchema returns without a data race
    (every buildOutSchema goroutine whose array has an entry has signalled
    before main left the select), nothing is lost: the slice of every array
    whose reference is not empty holds the proxy of each entry exactly once,
    and a slice is nil exactly when the reference is empty or the array has
    no entry. *)
Theorem slices_complete_without_race sch sched st :
  run sch sched (init sch) = Some st → returned st → race_free sch st →
  ∀ w, (IsEmpty (source sch w) = false →
          elems (field w (s st)) ≡ₚ proxies (schemas sch w)
          ∧ len (field w (s st)) = length (schemas sch w))
       ∧ (field w (s st) = None ↔ IsEmpty (source sch w) = true ∨ schemas sch w = []).
Proof.
  intros Hrun Hret Hfree w. unfold returned in Hret.
  destruct (run_build_inv _ _ _ Hrun) as [_ Ha Hl Hc Hr].
  assert (∀ l : slice (ptr SchemaProxy),
            elems l ≡ₚ proxies (schemas sch w) → len l = length (schemas sch w)) as Hlen.
  { intros l Hp. unfold len. rewrite Hp. unfold proxies. by rewrite length_fmap. }
  pose proof (ri_final _ _ Hr w) as Hfin. rewrite Hret in Hfin. unfold settled in Hfin.
  pose proof (li_started _ _ Hl) as Hst. rewrite Hret in Hst. specialize (Hst w).
  destruct (Hfree w) as [Hi|[Hd|Hnil]].
  - assert (IsEmpty (source sch w) = true) as He.
    { destruct (IsEmpty (source sch w)); [done|]. by destruct (Hst eq_refl). }
    rewrite Hfin by (by left). rewrite (ci_idle _ _ Hc w Hi), He.
    split; [done|]. split; [by left|done].
  - assert (IsEmpty (source sch w) = false) as He
      by (apply (ai_started _ _ Ha); by rewrite Hd).
    pose proof (ci_account _ _ Hc w) as Hacc.
    rewrite Hd, (ci_done _ _ Hc w Hd) in Hacc. simpl in Hacc.
    rewrite app_nil_r in Hacc.
    rewrite Hfin by (by right). split; [by auto|]. rewrite He. split.
    + intros Hn. right. rewrite Hn in Hacc. simpl in Hacc.
      symmetry in Hacc. apply Permutation_nil_r in Hacc.
      by apply fmap_nil_inv in Hacc.
    + intros [?|Hnil]; [done|]. by apply (nothing_to_append sch st w Hc Hr).
  - destruct (nothing_to_append sch st w Hc Hr Hnil) as [_ Hf].
    rewrite Hf, Hnil. split; [by intros _|]. split; [by right|done].
Qed.

(** [one_allOf_two_empty] has one entry and three arrays.  Under
    [complete_schedule] NewSchema returns on the signal of the goroutine for
    [allOf], without a race, and [AllOf] holds the one proxy. *)
Lemma slices_complete_without_race_witness :
  ∃ st, run one_allOf_two_empty complete_schedule (init one_allOf_two_empty) = Some st
        ∧ totalChildren one_allOf_two_empty ≠ dispatched one_allOf_two_empty
        ∧ len (AllOf (s st)) = 1
        ∧ AnyOf (s st) = None.
Proof.
  assert (∃ st, run one_allOf_two_empty complete_schedule (init one_allOf_two_empty)
                = Some st
                ∧ returned st ∧ race_free one_allOf_two_empty st)
    as (st & E & Hret & Hfree)
    by (eexists; split_and!;
        [vm_compute; reflexivity|reflexivity|intros []; vm_compute; auto]).
  exists st. split; [done|]. split; [by vm_compute|].
  pose proof (slices_complete_without_race _ _ _ E Hret Hfree) as H. split.
  - apply (proj1 (H allOf)). reflexivity.
  - apply (proj2 (H anyOf)). by right.
Defined.

(** X10.  When the number of composition entries equals the number of arrays
    whose reference is not empty and NewSchema returns, every goroutine it
    started has signalled, so nothing is lost: the slice of each array whose
    reference is not empty holds the proxy of every entry exactly once, in
    the order the children were received; and a slice is nil exactly when
    the reference is empty or the array has no entry. *)
Theorem slices_complete_when_counts_agree sch sched x m :
  totalChildren sch = dispatched sch →
  NewSchema sch sched = Some (x, m) →
  ∀ w, (IsEmpty (source sch w) = false → elems (field w x) ≡ₚ proxies (schemas sch w))
       ∧ (IsEmpty (source sch w) = false → len (field w x) = length (schemas sch w))
       ∧ (field w x = None ↔ IsEmpty (source sch w) = true ∨ schemas sch w = []).
Proof.
  intros Heq (st & Hrun & Hret & <- & _)%NewSchema_Some w.
  destruct (fields_at_return sch sched st w Heq Hrun Hret) as [Hperm Hnil].
  split_and!; [done| |done].
  intros He. unfold len. rewrite (Hperm He). unfold proxies. by rewrite length_fmap.
Qed.

(** NewSchema returns for [two_allOf_empty_anyOf] under [swapped_schedule],
    with both entries of [allOf], and a nil [AnyOf]. *)
Lemma slices_complete_when_counts_agree_witness :
  ∃ x m, NewSchema two_allOf_empty_anyOf swapped_schedule = Some (x, m)
         ∧ len (AllOf x) = 2
         ∧ AnyOf x = None.
Proof.
  destruct (NewSchema two_allOf_empty_anyOf swapped_schedule) as [[x m]|] eqn:E;
    [|by vm_compute in E].
  exists x, m. split; [done|].
  assert (totalChildren two_allOf_empty_anyOf = dispatched two_allOf_empty_anyOf)
    as Heq by (vm_compute; reflexivity).
  pose proof (slices_complete_when_counts_agree _ _ _ _ Heq E) as H. split.
  - apply (proj1 (proj2 (H allOf))). reflexivity.
  - apply (proj2 (proj2 (H anyOf))). by right.
Defined.

(** X11.  In every state of every execution, a buildOutSchema goroutine
    that has not been started has left its variable nil; one that is in its
    receive loop has appended as many proxies as its counter [j] says, never
    more than the array has entries; and one that has sent its completion
    (line 164) has appended the proxy of every entry of its array, each
    once. *)
Theorem buildOutSchema_signals_when_complete sch sched st w :
  run sch sched (init sch) = Some st →
  (collector st w = OIdle → vars st w = None)
  ∧ (∀ j, collector st w = OCollect j →
       len (vars st w) = j ∧ j ≤ length (schemas sch w))
  ∧ (collector st w = ODone → elems (vars st w) ≡ₚ proxies (schemas sch w)).
Proof.
  intros Hrun.
  destruct (run_build_inv _ _ _ Hrun) as [_ _ Hl [Hacc Hidle Hdone _] _].
  pose proof (li_children _ _ Hl w) as Hc. specialize (Hacc w).
  split_and!; [by apply Hidle| |].
  - intros j Hj. rewrite Hj in Hacc, Hc. simpl in Hacc, Hc.
    apply Permutation_length in Hacc. unfold len, proxies in *.
    rewrite length_app, !length_fmap in Hacc. lia.
  - intros Hd. rewrite Hd, (Hdone w Hd) in Hacc. simpl in Hacc.
    by rewrite app_nil_r in Hacc.
Qed.

(** At the end of [starving_schedule] the goroutine for the [allOf] of
    [two_allOf] has signalled, and its variable holds the two proxies. *)
Lemma buildOutSchema_signals_when_complete_witness :
  ∃ st, run two_allOf starving_schedule (init two_allOf) = Some st
        ∧ elems (vars st allOf) ≡ₚ proxies [ref_a; ref_b].
Proof.
  assert (∃ st, run two_allOf starving_schedule (init two_allOf) = Some st
                ∧ collector st allOf = ODone) as (st & E & Hd)
    by (eexists; split; [vm_compute; reflexivity|reflexivity]).
  exists st. split; [done|].
  exact (proj2 (proj2 (buildOutSchema_signals_when_complete _ _ _ allOf E)) Hd).
Defined.

(** ** The properties map, whatever the names *)

(** X12.  When NewSchema returns, [s.Properties] is nil exactly when the
    source has no property: a build never makes an empty map visible.
    Otherwise the map has an entry under the name of every source entry, and
    each of its entries is the proxy of a source entry of that name; with a
    name used twice it keeps one of the two, so that it has at least one
    entry and at most as many as the source. *)
Theorem properties_keyed_by_source_names sch sched x m :
  NewSchema sch sched = Some (x, m) →
  (m = None ↔ totalProps sch = 0)
  ∧ (Properties x = None ↔ m = None)
  ∧ ∀ pm, m = Some pm →
      (∀ k v, Value (base.Properties sch) !! k = Some v → is_Some (pm !! krValue k))
      ∧ (∀ name q, pm !! name = Some q →
           ∃ k v, Value (base.Properties sch) !! k = Some v
                  ∧ krValue k = name ∧ q = Some (prop_proxy k v))
      ∧ 1 ≤ size pm ≤ totalProps sch.
Proof.
  intros (st & Hrun & Hret & <- & <-)%NewSchema_Some.
  pose proof (run_props_inv _ _ _ Hrun) as Hinv.
  destruct (joined_all_inserted _ _ Hinv Hret) as [Hperm Hass].
  destruct Hinv as [_ Hlook Hdom Hnil Hset _]. rewrite Hass in Hnil, Hset.
  assert (inserted st = [] ↔ totalProps sch = 0) as Hzero.
  { rewrite totalProps_length, <- Hperm. split; [by intros ->|apply nil_length_inv]. }
  assert (∀ name q, props st !! name = Some q →
            ∃ k v, Value (base.Properties sch) !! k = Some v
                   ∧ krValue k = name ∧ q = Some (prop_proxy k v)) as Hfrom.
  { intros name q Hq. destruct (Hlook _ _ Hq) as ([k v] & He & Hn & Hk).
    exists k, v. split_and!; [|done|done]. apply elem_of_map_to_list. by rewrite <- Hperm. }
  unfold Properties_of. destruct (decide (inserted st = [])) as [E|E].
  { rewrite (Hnil E). split_and!; [tauto|done|done]. }
  rewrite (Hset E). split_and!.
  - split; [done|]. intros H0. by destruct E; apply Hzero.
  - done.
  - intros pm [= <-]. split_and!; [|done| |].
    + intros k v Hkv. apply (Hdom (k, v)). rewrite Hperm. by apply elem_of_map_to_list.
    + destruct (inserted st) as [|e l] eqn:El; [done|].
      destruct (Hdom e) as [q Hq]; [left|].
      destruct (decide (size (props st) = 0)) as [E0|E0]; [|lia].
      apply map_size_empty_inv in E0. rewrite E0 in Hq. by rewrite lookup_empty in Hq.
    + rewrite totalProps_length, <- Hperm, <- length_map_to_list.
      rewrite <- (length_fmap fst (map_to_list (props st))).
      trans (length ((fun e : PropEntry => krValue e.1) <$> inserted st));
        [|by rewrite length_fmap].
      apply submseteq_length, NoDup_submseteq; [apply NoDup_fst_map_to_list|].
      intros name [[n q] [-> Hq%elem_of_map_to_list]]%list_elem_of_fmap. simpl.
      destruct (Hlook _ _ Hq) as (e & He & <- & _).
      by apply (list_elem_of_fmap_2 (fun e : PropEntry => krValue e.1)).
Qed.

(** NewSchema returns for [twice_a], whose two entries share the name "a",
    with a map that has an entry under "a". *)
Lemma properties_keyed_by_source_names_witness :
  ∃ x pm, NewSchema twice_a two_props_schedule = Some (x, Some pm)
          ∧ is_Some (pm !! "a").
Proof.
  destruct (NewSchema twice_a two_props_schedule) as [[x [pm|]]|] eqn:E;
    [|by vm_compute in E|by vm_compute in E].
  exists x, pm. split; [done|].
  destruct (properties_keyed_by_source_names _ _ _ _ E) as (_ & _ & H).
  destruct (H pm eq_refl) as (Hdom & _ & _).
  apply (Hdom key_a1 ref_a). vm_compute. reflexivity.
Defined.

(** ** After the return *)

(** After the return every buildProps goroutine has ended or is about to
    unlock. *)
Lemma holder_after_return sch st :
  props_inv sch st → returned st →
  waiting st = [] ∧ (plock st = None ∨ ∃ e, plock st = Some (e, HUnlock)).
Proof.
  intros [Hperm _ _ _ _ Hcount] Hret. unfold returned in Hret.
  rewrite Hret in Hperm, Hcount. simpl in Hperm.
  rewrite totalProps_length, <- Hperm in Hcount.
  unfold signalled, holder in *. rewrite !length_app in Hcount.
  destruct (plock st) as [[e []]|]; simpl in *; try lia.
  - split; [apply nil_length_inv; lia|eauto].
  - split; [apply nil_length_inv; lia|eauto].
Qed.

Lemma step_after_return sch a st st' :
  props_inv sch st → returned st → step sch a st = Some st' →
  returned st' ∧ s st' = s st ∧ props st' = props st
  ∧ ∀ w, collector st' w = ODone → collector st w = ODone.
Proof.
  intros Hp Hret H. destruct (holder_after_return _ _ Hp Hret) as [Hw Hl].
  unfold returned in *. step_cases H; try congruence.
  all: try (destruct Hl as [?|[? ?]]; congruence).
  all: split_and!; try done.
  all: intros w0; fn_cases; try done.
Qed.

Lemma run_after_return sch sched st st' :
  props_inv sch st → returned st → run sch sched st = Some st' →
  returned st' ∧ s st' = s st ∧ props st' = props st
  ∧ ∀ w, collector st' w = ODone → collector st w = ODone.
Proof.
  revert st. induction sched as [|a sched IH]; intros st Hp Hret Hrun; simpl in Hrun.
  - by simplify_eq.
  - destruct (step sch a st) as [st1|] eqn:E; [|done].
    destruct (step_after_return _ _ _ _ Hp Hret E) as (Hret1 & Hs1 & Hp1 & Hc1).
    destruct (IH st1 (step_props_inv _ _ _ _ Hp E) Hret1 Hrun) as (? & Hs & Hpr & Hc).
    split_and!; [done|congruence|congruence|auto].
Qed.

Lemma step_after_quiet_return sch a st st' :
  build_inv sch st → returned st → race_free sch st → step sch a st = Some st' →
  (∀ w, vars st' w = vars st w) ∧ (∀ w, collector st w = OIdle → collector st' w = OIdle).
Proof.
  intros [_ _ _ Hc _] Hret Hfree H. unfold returned in Hret.
  pose proof (ci_account _ _ Hc) as Hacc.
  step_cases H; try congruence; try done.
  all: split; intros w0; fn_cases; try done; try congruence.
  exfalso. specialize (Hacc w0).
  destruct (Hfree w0) as [?|[?|Hnil]]; [congruence|congruence|].
  rewrite Hnil in Hacc.
  match goal with E : collector _ w0 = OAppend _ _ |- _ => rewrite E in Hacc end.
  simpl in Hacc. apply Permutation_length in Hacc.
  rewrite length_app in Hacc. simpl in Hacc. lia.
Qed.

(** X13.  What NewSchema returns without a data race is never written
    again: in every continuation of the execution (a buildProps unlocking, a
    buildOutSchema without entry going to its send) the Schema the caller
    holds, the map behind its [Properties] and the five variables its slices
    were read from stay as they were at the return, and no race arises. *)
Theorem nothing_written_after_return sch sched sched' st st' :
  run sch sched (init sch) = Some st → returned st → race_free sch st →
  run sch sched' st = Some st' →
  returned st' ∧ race_free sch st'
  ∧ s st' = s st ∧ Properties_of st' = Properties_of st
  ∧ ∀ w, vars st' w = vars st w.
Proof.
  intros Hrun. pose proof (run_build_inv _ _ _ Hrun) as Hb. clear Hrun sched.
  revert st Hb. induction sched' as [|a sched' IH]; intros st Hb Hret Hfree Hrun';
    simpl in Hrun'.
  - by simplify_eq.
  - destruct (step sch a st) as [st1|] eqn:E; [|done].
    destruct (step_after_return _ _ _ _ (bi_props _ _ Hb) Hret E)
      as (Hret1 & Hs1 & Hp1 & Hd1).
    destruct (step_after_quiet_return _ _ _ _ Hb Hret Hfree E) as [Hv1 Hi1].
    assert (build_inv sch st1) as Hb1.
    { destruct Hb as [Hp Ha Hl Hc Hr]. split.
      - by eapply step_props_inv.
      - by eapply step_await_inv.
      - by eapply step_live_inv.
      - by eapply step_collect_inv.
      - by eapply step_result_inv. }
    assert (race_free sch st1) as Hfree1.
    { intros w. destruct (Hfree w) as [Hi|[Hd|Hnil]]; [left; by apply Hi1| |by auto].
      right; left. clear IH Hrun'. unfold returned in Hret.
      step_cases E; try congruence; try done.
      all: fn_cases; congruence. }
    destruct (IH st1 Hb1 Hret1 Hfree1 Hrun') as (? & ? & Hs & Hp & Hv).
    split_and!; [done|done|congruence| |intros w; by rewrite Hv].
    rewrite Hp. unfold Properties_of. by rewrite Hs1, Hp1.
Qed.

(** After NewSchema has returned for [one_allOf_two_empty] under
    [complete_schedule], the goroutines for [anyOf] and [oneOf] run on to
    their send; the Schema returned and the variable [allOf] keep the one
    proxy. *)
Lemma nothing_written_after_return_witness :
  ∃ st st', run one_allOf_two_empty complete_schedule (init one_allOf_two_empty)
            = Some st
            ∧ run one_allOf_two_empty late_idle st = Some st'
            ∧ collector st' anyOf = OCollect 0
            ∧ s st' = s st
            ∧ vars st' allOf = vars st allOf.
Proof.
  assert (∃ st, run one_allOf_two_empty complete_schedule (init one_allOf_two_empty)
                = Some st
                ∧ returned st ∧ race_free one_allOf_two_empty st
                ∧ ∃ st', run one_allOf_two_empty late_idle st = Some st'
                         ∧ collector st' anyOf = OCollect 0)
    as (st & E & Hret & Hfree & st' & E' & Hc)
    by (eexists; split_and!;
        [vm_compute; reflexivity|reflexivity|intros []; vm_compute; auto
        |eexists; split; [vm_compute; reflexivity|reflexivity]]).
  exists st, st'. split_and!; [done|done|done| |].
  - exact (proj1 (proj2 (proj2
             (nothing_written_after_return _ _ _ _ _ E Hret Hfree E')))).
  - exact (proj2 (proj2 (proj2 (proj2
             (nothing_written_after_return _ _ _ _ _ E Hret Hfree E')))) allOf).
Defined.

(** X14.  When the arrays whose reference is not empty outnumber the
    composition entries and NewSchema returns, it leaves a goroutine behind
    for good: one of the buildOutSchema goroutines it started has not sent
    its completion, and in no continuation of the execution does it ever
    send it, main being gone from the select. *)
Theorem surplus_goroutine_never_ends sch sched x m :
  totalChildren sch < dispatched sch →
  NewSchema sch sched = Some (x, m) →
  ∃ w, IsEmpty (source sch w) = false
       ∧ ∀ sched' st', run sch (sched ++ sched') (init sch) = Some st' →
           collector st' w ≠ OIdle ∧ collector st' w ≠ ODone.
Proof.
  intros Hlt (st & Hrun & Hret & _ & _)%NewSchema_Some.
  destruct (run_build_inv _ _ _ Hrun) as [Hp _ _ _ Hr].
  pose proof (ri_joined _ _ Hr) as Hj. unfold returned in Hret. rewrite Hret in Hj.
  destruct (outstanding_collector sch st) as (w & Hpres & Hnd); [lia|].
  exists w. split; [done|]. intros sched' st' Hrun0.
  pose proof (run_live_inv _ _ _ Hrun0) as Hl.
  apply run_app_Some in Hrun0 as (st0 & Hrun0 & Hrun'). simplify_eq.
  destruct (run_after_return _ _ _ _ Hp Hret Hrun') as (Hret' & _ & _ & Hc).
  split; [|by intros E%Hc].
  pose proof (li_started _ _ Hl) as Hs. unfold returned in Hret'. rewrite Hret' in Hs.
  by apply Hs.
Qed.

(** NewSchema returns for [empty_anyOf] and leaves the goroutine of an array
    behind. *)
Lemma surplus_goroutine_never_ends_witness :
  ∃ w, IsEmpty (source empty_anyOf w) = false
       ∧ ∀ sched' st',
           run empty_anyOf (main_only ++ sched') (init empty_anyOf) = Some st' →
           collector st' w ≠ OIdle ∧ collector st' w ≠ ODone.
Proof.
  destruct (NewSchema empty_anyOf main_only) as [[x m]|] eqn:E;
    [|by vm_compute in E].
  assert (totalChildren empty_anyOf < dispatched empty_anyOf) as Hlt
    by (vm_compute; lia).
  exact (surplus_goroutine_never_ends _ _ _ _ Hlt E).
Defined.

(** ** One completion too many *)

Lemma step_overshoot sch a st st' cc cp :
  pc st = MSelect cc cp → totalChildren sch < cc → step sch a st = Some st' →
  ∃ cc' cp', pc st' = MSelect cc' cp' ∧ totalChildren sch < cc'.
Proof.
  intros Hpc Hlt H. step_cases H; try congruence.
  all: tests_to_props; simplify_eq; try lia.
  all: eexists _, _; split; [done|lia].
Qed.

Lemma run_overshoot sch sched st st' cc cp :
  pc st = MSelect cc cp → totalChildren sch < cc → run sch sched st = Some st' →
  ∃ cc' cp', pc st' = MSelect cc' cp'.
Proof.
  revert st cc cp. induction sched as [|a sched IH]; intros st cc cp Hpc Hlt Hrun;
    simpl in Hrun.
  - simplify_eq. eauto.
  - destruct (step sch a st) as [st1|] eqn:E; [|done].
    destruct (step_overshoot _ _ _ _ _ _ Hpc Hlt E) as (cc1 & cp1 & Hpc1 & Hlt1).
    by eapply IH.
Qed.

(** X15.  The select leaves on equality of the counters (lines 220 and 225),
    and [completeChildren] only grows: once main has counted more completions
    than there are composition entries, NewSchema returns in no continuation
    of the execution. *)
Theorem overshoot_never_returns sch sched st cc cp :
  run sch sched (init sch) = Some st →
  pc st = MSelect cc cp → totalChildren sch < cc →
  ∀ sched', NewSchema sch (sched ++ sched') = None.
Proof.
  intros Hrun Hpc Hlt sched'. apply NewSchema_None. intros st' Hrun0.
  apply run_app_Some in Hrun0 as (st0 & Hrun0 & Hrun'). simplify_eq.
  destruct (run_overshoot _ _ _ _ _ _ Hpc Hlt Hrun') as (cc' & cp' & Hpc').
  unfold returned. congruence.
Qed.

(** For [prop_a_empty_anyOf], whether NewSchema returns is up to the
    schedule: it returns when the buildProps goroutine signals first, and
    never once the goroutine for [anyOf] has signalled first. *)
Lemma overshoot_never_returns_witness :
  (∃ x m, NewSchema prop_a_empty_anyOf one_prop_schedule = Some (x, m))
  ∧ NewSchema prop_a_empty_anyOf (overshoot_schedule ++ one_prop_schedule) = None.
Proof.
  split.
  - destruct (NewSchema prop_a_empty_anyOf one_prop_schedule) as [[x m]|] eqn:E;
      [|by vm_compute in E].
    by exists x, m.
  - destruct (run prop_a_empty_anyOf overshoot_schedule (init prop_a_empty_anyOf))
      as [st|] eqn:E; [|by vm_compute in E].
    assert (pc st = MSelect 1 0) as Hpc by (vm_compute in E; by simplify_eq).
    assert (totalChildren prop_a_empty_anyOf < 1) as Hlt by (vm_compute; lia).
    exact (overshoot_never_returns _ _ _ _ _ E Hpc Hlt one_prop_schedule).
Defined.

(** ** Two schedules, one result *)

Lemma props_of_Permutation (l l' : list PropEntry) :
  NoDup ((fun e : PropEntry => krValue e.1) <$> l) → l ≡ₚ l' → props_of l = props_of l'.
Proof.
  intros Hnd Hperm. unfold props_of. apply list_to_map_proper.
  - by rewrite props_of_fst.
  - by apply fmap_Permutation.
Qed.

(** With pairwise distinct names the map behind [s.Properties] is the same
    under every schedule. *)
Lemma Properties_at_return sch sched st :
  distinct_names sch → run sch sched (init sch) = Some st → returned st →
  Properties_of st = expected_Properties sch.
Proof.
  intros Hdist Hrun Hret. pose proof (run_props_inv _ _ _ Hrun) as Hinv.
  destruct (joined_all_inserted _ _ Hinv Hret) as [Hperm Hass].
  assert (NoDup ((fun e : PropEntry => krValue e.1) <$> inserted st)) as Hnd.
  { unfold distinct_names in Hdist. by rewrite Hperm. }
  pose proof (props_inv_props_of _ _ Hinv Hnd) as Hprops.
  assert (totalProps sch = length (inserted st)) as Hlen
    by (by rewrite totalProps_length, Hperm).
  unfold Properties_of, expected_Properties. case_decide as E; rewrite Hlen in E.
  - apply nil_length_inv in E. by rewrite (pi_nil _ _ Hinv) by (by rewrite Hass).
  - rewrite (pi_set _ _ Hinv) by (rewrite Hass; intros E0; by rewrite E0 in E).
    by rewrite Hprops, (props_of_Permutation _ _ Hnd Hperm).
Qed.

(** X16.  Two executions of NewSchema on one source that both return agree
    on every scalar field; on the map behind [Properties] when the source
    names are pairwise distinct; and, when the number of composition entries
    equals the number of arrays whose reference is not empty, on the five
    slices up to the order of their elements, nil against nil. *)
Theorem result_independent_of_schedule sch sched1 sched2 x1 m1 x2 m2 :
  NewSchema sch sched1 = Some (x1, m1) →
  NewSchema sch sched2 = Some (x2, m2) →
  same_scalars x1 x2
  ∧ (distinct_names sch → m1 = m2)
  ∧ (totalChildren sch = dispatched sch →
     ∀ w, elems (field w x1) ≡ₚ elems (field w x2)
          ∧ (field w x1 = None ↔ field w x2 = None)).
Proof.
  intros (st1 & Hrun1 & Hret1 & <- & <-)%NewSchema_Some
         (st2 & Hrun2 & Hret2 & <- & <-)%NewSchema_Some.
  split_and!.
  - pose proof (run_same_scalars _ _ _ Hrun1) as H1.
    pose proof (run_same_scalars _ _ _ Hrun2) as H2.
    unfold same_scalars in *. congruence.
  - intros Hdist.
    by rewrite (Properties_at_return _ _ _ Hdist Hrun1 Hret1),
               (Properties_at_return _ _ _ Hdist Hrun2 Hret2).
  - intros Heq w.
    destruct (fields_at_return sch sched1 st1 w Heq Hrun1 Hret1) as [Hp1 Hn1].
    destruct (fields_at_return sch sched2 st2 w Heq Hrun2 Hret2) as [Hp2 Hn2].
    split; [|by rewrite Hn1, Hn2].
    destruct (IsEmpty (source sch w)) eqn:He.
    + assert (field w (s st1) = None) as -> by (apply Hn1; by left).
      assert (field w (s st2) = None) as -> by (apply Hn2; by left). done.
    + by rewrite Hp1, Hp2.
Qed.

(** NewSchema returns for [two_allOf_empty_anyOf] under [swapped_schedule]
    and under [ordered_schedule], with the same two proxies in [AllOf], in
    different orders. *)
Lemma result_independent_of_schedule_witness :
  ∃ x1 m1 x2 m2,
    NewSchema two_allOf_empty_anyOf swapped_schedule = Some (x1, m1)
    ∧ NewSchema two_allOf_empty_anyOf ordered_schedule = Some (x2, m2)
    ∧ elems (AllOf x1) ≡ₚ elems (AllOf x2)
    ∧ AllOf x1 ≠ AllOf x2
    ∧ m1 = m2.
Proof.
  assert (∃ x1 m1 x2 m2,
            NewSchema two_allOf_empty_anyOf swapped_schedule = Some (x1, m1)
            ∧ NewSchema two_allOf_empty_anyOf ordered_schedule = Some (x2, m2)
            ∧ AllOf x1 ≠ AllOf x2) as (x1 & m1 & x2 & m2 & E1 & E2 & Hne)
    by (eexists _, _, _, _;
        split_and!; [vm_compute; reflexivity|vm_compute; reflexivity|done]).
  exists x1, m1, x2, m2. split_and!; [done|done| |done|].
  - assert (totalChildren two_allOf_empty_anyOf = dispatched two_allOf_empty_anyOf)
      as Heq by (vm_compute; reflexivity).
    destruct (result_independent_of_schedule _ _ _ _ _ _ _ E1 E2) as (_ & _ & Hf).
    exact (proj1 (Hf Heq allOf)).
  - assert (distinct_names two_allOf_empty_anyOf) as Hd.
    { unfold distinct_names. apply (bool_decide_unpack _). vm_compute. reflexivity. }
    destruct (result_independent_of_schedule _ _ _ _ _ _ _ E1 E2) as (_ & Hm & _).
    exact (Hm Hd).
Defined.
